(** * vald: validation combinators for flat string inputs

    A shallow embedding of [vald.go] (package [vald]) and the properties of its
    validators, checkers and of the [Map] materializer.

    Go function values are modelled as state-passing functions over a world
    [W] that stands for everything the caller's callbacks can touch: a
    [Getter], a [Checker] and a [Consumer] may each read and change it.  A
    validator receives the callbacks as arguments, exactly as in the source,
    so a call it makes (or does not make) shows in the world it returns.

    Callbacks are total: a getter, checker or sink that panics or does not
    return is outside the model.  A function value handed to a constructor
    is not [nil], except for the two sub-validators of [Cond], which the
    source tests for [nil]. *)

From Stdlib Require Import Ascii String.
From stdpp Require Import base option list strings gmap pretty.

Set Default Proof Using "Type".
Local Open Scope string_scope.
Local Open Scope list_scope.

(** ** Go values *)

(** The [error] interface, restricted to the dynamic types the package meets:
    the value of [errors.New] and [*strconv.NumError].  A [nil] error is
    [None] in [option error]. *)
Inductive error : Type :=
| errorString (s : string)
| NumError (Func Num : string) (Err : error).

Definition errors_New (text : string) : error := errorString text.

(** A constructor either returns its value or panics with a message. *)
Inductive result (A : Type) : Type :=
| Ok (a : A)
| Panic (msg : string).
Arguments Ok {A} a.
Arguments Panic {A} msg.

(** The double quote character, for messages that the tests spell out. *)
Definition dquote : ascii := ascii_of_nat 34.

(** ** The part of package [strconv] the source uses *)

(** [strconv.Quote] escapes by Unicode tables that are not part of the
    repository; the development is parametric in it. *)
Class Strconv : Type := strconv_Quote : string → string.

(** An instance that agrees with [strconv.Quote] on strings of printable
    ASCII characters other than the double quote and the backslash; it is
    used to run the definitions on concrete inputs. *)
Definition quote_plain : Strconv := λ s, String dquote (s +:+ String dquote "").

(** Modelled from the spec: [strconv.ErrSyntax] of the Go standard library,
    the reason of a parse error; its message is the [invalid syntax] that
    [TestErrors] shows. *)
Definition strconv_ErrSyntax : error := errors_New "invalid syntax".

(** Modelled from the spec: [strconv.ParseBool] of the Go standard library,
    which is not part of the repository.  It accepts [1, t, T, TRUE, true,
    True] as true and [0, f, F, FALSE, false, False] as false, and otherwise
    returns a [*NumError] for function [ParseBool] that wraps [ErrSyntax]. *)
Definition strconv_ParseBool (str : string) : bool * option error :=
  if bool_decide (str ∈ ["1"; "t"; "T"; "true"; "TRUE"; "True"]) then (true, None)
  else if bool_decide (str ∈ ["0"; "f"; "F"; "false"; "FALSE"; "False"]) then (false, None)
  else (false, Some (NumError "ParseBool" str strconv_ErrSyntax)).

(** Modelled from the spec: [strconv.FormatBool] of the Go standard library,
    the literal [true] or [false]. *)
Definition strconv_FormatBool (b : bool) : string :=
  if b then "true" else "false".

(** [strconv.Itoa] on a slice index: its decimal digits. *)
Definition strconv_Itoa (i : nat) : string := pretty i.

(** The [Error] method of the two dynamic types; for [*strconv.NumError] it
    is the format of the Go standard library. *)
Fixpoint Error `{Strconv} (err : error) : string :=
  match err with
  | errorString s => s
  | NumError fn num e =>
      "strconv." +:+ fn +:+ ": parsing " +:+ strconv_Quote num +:+ ": " +:+ Error e
  end.

(** ** Calls with effects *)

(** A Go call that returns an [A]: it takes the world and gives the value
    together with the world it leaves. *)
Definition M (W A : Type) : Type := W → A * W.

Definition ret {W A} (a : A) : M W A := λ w, (a, w).

Definition bind {W A B} (m : M W A) (k : A → M W B) : M W B :=
  λ w, let '(a, w') := m w in k a w'.

Notation "x <- m ;; k" := (bind m (λ x, k))
  (at level 100, m at next level, right associativity, only parsing).

(** [type Getter = func(string) string] *)
Definition Getter (W : Type) : Type := string → M W string.

(** [type Consumer = func(string, string) error] *)
Definition Consumer (W : Type) : Type := string → string → M W (option error).

(** [type Validator func(Getter, Consumer) error] *)
Definition Validator (W : Type) : Type := Getter W → Consumer W → M W (option error).

(** [type Checker = func(string) (string, error)] *)
Definition Checker (W : Type) : Type := string → M W (string * option error).

Section vald.
Context {W : Type} `{Strconv}.

(** [len(val) > 0] *)
Definition nonempty (val : string) : bool := bool_decide (0 < String.length val).

(** [func doCheck(key, val string, check Checker, cons Consumer) (err error)] *)
Definition doCheck (key val : string) (check : Checker W) (cons : Consumer W)
  : M W (option error) :=
  r <- check val ;;
  let '(val, err) := r in
  match err with
  | Some err =>
      ret (Some (errors_New ("invalid value for key " +:+ strconv_Quote key
                             +:+ ": " +:+ Error err)))
  | None => cons key val
  end.

(** The body of the [for ... range validators] loop of [Pack]; [err] is the
    named result, which the loop assigns at every round. *)
Fixpoint Pack_range (validators : list (Validator W)) (get : Getter W)
    (cons : Consumer W) (err : option error) : M W (option error) :=
  match validators with
  | [] => ret err
  | validate :: rest =>
      err <- validate get cons ;;
      match err with
      | Some _ => ret err                      (* break *)
      | None => Pack_range rest get cons err
      end
  end.

(** [func Pack(validators ...Validator) Validator] *)
Definition Pack (validators : list (Validator W)) : result (Validator W) :=
  if bool_decide (length validators = 0) then
    Panic "empty validator list in vald.Pack()"
  else
    Ok (λ get cons, Pack_range validators get cons None).

(** [func Req(key string, check Checker) Validator] *)
Definition Req (key : string) (check : Checker W) : Validator W :=
  λ get cons,
    val <- get key ;;
    if nonempty val then doCheck key val check cons
    else ret (Some (errors_New ("missing key: " +:+ strconv_Quote key))).

(** [func Opt(key string, check Checker) Validator] *)
Definition Opt (key : string) (check : Checker W) : Validator W :=
  λ get cons,
    val <- get key ;;
    if nonempty val then doCheck key val check cons
    else ret None.

(** [func OptDef(key string, check Checker, deflt string) Validator] *)
Definition OptDef (key : string) (check : Checker W) (deflt : string) : Validator W :=
  λ get cons,
    val <- get key ;;
    if nonempty val then doCheck key val check cons
    else cons key deflt.

(** [func Cond(key string, check Checker, yes, no Validator) Validator];
    a [nil] sub-validator is [None]. *)
Definition Cond (key : string) (check : Checker W) (yes no : option (Validator W))
  : result (Validator W) :=
  match yes, no with
  | None, None => Panic "nil validators in vald.OptCond()"
  | _, _ =>
      Ok (λ get cons,
            val <- get key ;;
            if nonempty val then
              err <- doCheck key val check cons ;;
              match err, yes with
              | None, Some yes => yes get cons
              | _, _ => ret err
              end
            else
              match no with
              | Some no => no get cons
              | None => ret None
              end)
  end.

(** The [for i, lit := range literals] loop of [OneOf], filling the map. *)
Fixpoint OneOf_range (i : nat) (literals : list string) (m : gmap string string)
  : result (gmap string string) :=
  match literals with
  | [] => Ok m
  | lit :: rest =>
      if bool_decide (String.length lit = 0) then
        Panic ("empty literal in vald.OneOf() at index " +:+ strconv_Itoa i)
      else
        OneOf_range (S i) rest (<[lit := lit]> m)
  end.

(** [func OneOf(literals ...string) Checker]; [m[val]] is the zero value,
    the empty string, for a key that is not in [m]. *)
Definition OneOf (literals : list string) : result (Checker W) :=
  if bool_decide (length literals = 0) then
    Panic "empty list of literals in vald.OneOf()"
  else
    match OneOf_range 0 literals ∅ with
    | Panic msg => Panic msg
    | Ok m =>
        Ok (λ val,
              let s := default "" (m !! val) in
              if bool_decide (String.length s = 0) then
                ret (s, Some (errors_New (strconv_Quote val)))
              else ret (s, None))
    end.

(** [func mapNumErr(val string, err error) error] *)
Definition mapNumErr (val : string) (err : error) : error :=
  let err := match err with
             | NumError _ _ e => e
             | _ => err
             end in
  errors_New (strconv_Quote val +:+ ": " +:+ Error err).

(** [func Bool(val string) (string, error)] *)
Definition Bool : Checker W :=
  λ val,
    let '(flag, err) := strconv_ParseBool val in
    match err with
    | Some err => ret ("", Some (mapNumErr val err))
    | None => ret (strconv_FormatBool flag, None)
    end.

(** [func FromMap(m map[string]string) Getter] *)
Definition FromMap (m : gmap string string) : Getter W :=
  λ k, ret (default "" (m !! k)).

End vald.

(** [func (validate Validator) Map(get Getter) (map[string]string, error)].
    The map [r] is local to the call and reachable only through the closure
    [cons]; the validator therefore runs in the caller's world extended with
    [r].  A [nil] map result is [None]. *)
Definition Map_cons {W : Type} : Consumer (W * gmap string string) :=
  λ k v '(w, r), (None, (w, <[k := v]> r)).

Definition Map_get {W : Type} (get : Getter W) : Getter (W * gmap string string) :=
  λ k '(w, r), let '(v, w') := get k w in (v, (w', r)).

Definition Map {W : Type} (validate : Validator (W * gmap string string))
    (get : Getter W) : M W (option (gmap string string) * option error) :=
  λ w,
    let r : gmap string string := ∅ in
    let '(err, (w', r')) := validate (Map_get get) Map_cons (w, r) in
    match err with
    | Some err => ((None, Some err), w')
    | None => ((Some r', None), w')
    end.

(** ** Notions the properties are stated with *)

(** [succeed_in_order get cons vs w w']: called one after the other in list
    order, starting in world [w], every validator of [vs] returns [nil], and
    the last one leaves the world [w']. *)
Inductive succeed_in_order {W : Type} (get : Getter W) (cons : Consumer W)
  : list (Validator W) → W → W → Prop :=
| succeed_nil w : succeed_in_order get cons [] w w
| succeed_cons v vs w w1 w2 :
    v get cons w = (None, w1) →
    succeed_in_order get cons vs w1 w2 →
    succeed_in_order get cons (v :: vs) w w2.

(** A validator that makes no call at all. *)
Definition silent {W : Type} : Validator W := λ _ _, ret None.

(** A sink that records every pair it is handed and answers with the verdict
    [accept]; its world is the record. *)
Definition recorder (accept : string → string → option error)
  : Consumer (list (string * string)) :=
  λ k v tr, (accept k v, tr ++ [(k, v)]).

(** A sink that accepts every pair. *)
Definition accept_all : string → string → option error := λ _ _, None.

(** The message [TestErrors] of [vald_test.go] expects from [Req] for a key
    that is missing. *)
Definition test_missing_message `{Strconv} (key : string) : string :=
  "parameter " +:+ strconv_Quote key +:+ ": missing value".

(** A checker that neither reads nor changes the world: the pure function
    the specification asks a checker to be. *)
Definition pure_checker {W : Type} (check : Checker W) : Prop :=
  ∃ f : string → string * option error, ∀ val w, check val w = (f val, w).

(** The validators composed with the constructors of the package over pure
    checkers. *)
Inductive composed {W : Type} `{Strconv} : Validator W → Prop :=
| composed_Req key check :
    pure_checker check → composed (Req key check)
| composed_Opt key check :
    pure_checker check → composed (Opt key check)
| composed_OptDef key check deflt :
    pure_checker check → composed (OptDef key check deflt)
| composed_Cond key check yes no v :
    pure_checker check →
    (∀ y, yes = Some y → composed y) →
    (∀ n, no = Some n → composed n) →
    Cond key check yes no = Ok v →
    composed v
| composed_Pack validators v :
    (∀ u, u ∈ validators → composed u) →
    Pack validators = Ok v →
    composed v.

(** The value of the last pair of the list that has key [k]. *)
Fixpoint last_write (pairs : list (string * string)) (k : string) : option string :=
  match pairs with
  | [] => None
  | (k', v) :: rest =>
      match last_write rest k with
      | Some v' => Some v'
      | None => if decide (k' = k) then Some v else None
      end
  end.

(** The spellings [strconv.ParseBool] accepts. *)
Definition true_spellings : list string := ["1"; "t"; "T"; "TRUE"; "true"; "True"].
Definition false_spellings : list string := ["0"; "f"; "F"; "FALSE"; "false"; "False"].

(** A sink that refuses every pair, with an error of its own. *)
Definition refuse_all : string → string → option error :=
  λ _ _, Some (errors_New "sink refuses").

(** ** The checker [Regex] *)

(** [regexp.MustCompile(patt).MatchString] of the Go standard library: the
    matcher of a pattern that compiles, and a panic with the library's
    message for a pattern that does not.  The engine is not part of the
    repository; the development is parametric in it. *)
Class Regexp : Type := regexp_MustCompile : string → result (string → bool).

(** [func Regex(patt string) Checker] *)
Definition Regex `{Strconv} `{Regexp} {W : Type} (patt : string) : result (Checker W) :=
  match regexp_MustCompile patt with
  | Panic msg => Panic msg
  | Ok matchString =>
      Ok (λ val,
            if matchString val then ret (val, None)
            else ret ("", Some (errors_New (strconv_Quote val))))
  end.

(** A stand-in engine to run the definitions on concrete inputs: a pattern
    matches the one string equal to it, and the pattern of a lone opening
    parenthesis does not compile. *)
Definition regexp_literal : Regexp :=
  λ patt,
    if bool_decide (patt = "(") then Panic "regexp: Compile: missing closing )"
    else Ok (λ val, bool_decide (val = patt)).

(** ** Further notions *)

(** The three kinds of failure a validator of the package can return: the
    key is missing, the checker refused the value, the sink refused the
    pair. *)
Inductive failure_kind `{Strconv} {W : Type} (cons : Consumer W) (e : error) : Prop :=
| missing_key key :
    e = errors_New ("missing key: " +:+ strconv_Quote key) →
    failure_kind cons e
| invalid_value key e0 :
    e = errors_New ("invalid value for key " +:+ strconv_Quote key
                    +:+ ": " +:+ Error e0) →
    failure_kind cons e
| sink_failure k v w w' :
    cons k v w = (Some e, w') →
    failure_kind cons e.

(** Writing the pairs of a list into a map, in order. *)
Fixpoint write_all (pairs : list (string * string)) (r : gmap string string)
  : gmap string string :=
  match pairs with
  | [] => r
  | (k, v) :: rest => write_all rest (<[k := v]> r)
  end.

(** Two checkers, in two worlds, that compute the same pure function. *)
Definition twin_checker {W1 W2 : Type} (c1 : Checker W1) (c2 : Checker W2) : Prop :=
  ∃ f : string → string * option error,
    (∀ val w, c1 val w = (f val, w)) ∧ (∀ val w, c2 val w = (f val, w)).

(** The same composition of the package's constructors, built once for
    the world [W1] and once for the world [W2]. *)
Inductive twin {W1 W2 : Type} `{Strconv} : Validator W1 → Validator W2 → Prop :=
| twin_Req key c1 c2 :
    twin_checker c1 c2 → twin (Req key c1) (Req key c2)
| twin_Opt key c1 c2 :
    twin_checker c1 c2 → twin (Opt key c1) (Opt key c2)
| twin_OptDef key c1 c2 deflt :
    twin_checker c1 c2 → twin (OptDef key c1 deflt) (OptDef key c2 deflt)
| twin_Cond key c1 c2 yes1 yes2 no1 no2 v1 v2 :
    twin_checker c1 c2 →
    (yes1 = None ↔ yes2 = None) →
    (∀ y1 y2, yes1 = Some y1 → yes2 = Some y2 → twin y1 y2) →
    (no1 = None ↔ no2 = None) →
    (∀ n1 n2, no1 = Some n1 → no2 = Some n2 → twin n1 n2) →
    Cond key c1 yes1 no1 = Ok v1 →
    Cond key c2 yes2 no2 = Ok v2 →
    twin v1 v2
| twin_Pack vs1 vs2 v1 v2 :
    length vs1 = length vs2 →
    (∀ i u1 u2, vs1 !! i = Some u1 → vs2 !! i = Some u2 → twin u1 u2) →
    Pack vs1 = Ok v1 →
    Pack vs2 = Ok v2 →
    twin v1 v2.

(** A call on the record of a [recorder] and a call on the map of [Map]
    that return the same value, the first adding to the record the pairs the
    second writes into the map, and nothing else. *)
Definition mirrors {W A : Type} (m1 : M (list (string * string)) A)
    (m2 : M (W * gmap string string) A) : Prop :=
  ∃ a l, (∀ tr, m1 tr = (a, tr ++ l))
         ∧ (∀ w r, m2 (w, r) = (a, (w, write_all l r))).

(** ** Validators as scripts *)

(** What a validator can do with the two callbacks it is handed: return,
    fetch the value of a key and go on according to it, or hand a pair to
    the sink and go on according to its answer. *)
Inductive script : Type :=
| Return (err : option error)
| Fetch (key : string) (next : string → script)
| Emit (key val : string) (next : option error → script).

(** The validator that follows a script. *)
Fixpoint play {W : Type} (s : script) (get : Getter W) (cons : Consumer W)
  : M W (option error) :=
  match s with
  | Return err => ret err
  | Fetch key next => val <- get key ;; play (next val) get cons
  | Emit key val next => err <- cons key val ;; play (next err) get cons
  end.

(** What a script yields on a getter and a sink that accepts every pair:
    the failure, the pairs handed to the sink, in order, and the world the
    getter is left in. *)
Fixpoint emissions {W : Type} (s : script) (get : Getter W) (w : W)
  : option error * list (string * string) * W :=
  match s with
  | Return err => (err, [], w)
  | Fetch key next => let '(val, w1) := get key w in emissions (next val) get w1
  | Emit key val next =>
      let '(err, l, w1) := emissions (next None) get w in (err, (key, val) :: l, w1)
  end.

(** One script, and when it returns [nil] another. *)
Fixpoint and_then (s rest : script) : script :=
  match s with
  | Return None => rest
  | Return (Some e) => Return (Some e)
  | Fetch key next => Fetch key (λ val, and_then (next val) rest)
  | Emit key val next => Emit key val (λ err, and_then (next err) rest)
  end.

(** The scripts of [doCheck] and of the field validators over a checker
    that computes the pure function [f]. *)
Definition doCheck_script `{Strconv} (key val : string)
    (f : string → string * option error) : script :=
  let '(val', err) := f val in
  match err with
  | Some err =>
      Return (Some (errors_New ("invalid value for key " +:+ strconv_Quote key
                                +:+ ": " +:+ Error err)))
  | None => Emit key val' Return
  end.

Definition Req_script `{Strconv} (key : string) (f : string → string * option error)
  : script :=
  Fetch key (λ val,
    if nonempty val then doCheck_script key val f
    else Return (Some (errors_New ("missing key: " +:+ strconv_Quote key)))).

Definition Opt_script `{Strconv} (key : string) (f : string → string * option error)
  : script :=
  Fetch key (λ val, if nonempty val then doCheck_script key val f else Return None).

Definition OptDef_script `{Strconv} (key : string) (f : string → string * option error)
    (deflt : string) : script :=
  Fetch key (λ val,
    if nonempty val then doCheck_script key val f else Emit key deflt Return).

(** The pure function that [Bool] computes. *)
Definition Bool_result `{Strconv} (val : string) : string * option error :=
  (Bool (W:=unit) val tt).1.

(** ** Logging the fetches *)

(** A getter that also logs the keys it is asked for, and a checker and a
    sink that leave such a log alone. *)
Definition logging {W : Type} (get : Getter W) : Getter (W * list string) :=
  λ k '(w, log), let '(v, w') := get k w in (v, (w', log ++ [k])).

Definition beside_checker {W X : Type} (check : Checker W) : Checker (W * X) :=
  λ val '(w, x), let '(r, w') := check val w in (r, (w', x)).

Definition beside_sink {W X : Type} (cons : Consumer W) : Consumer (W * X) :=
  λ k v '(w, x), let '(e, w') := cons k v w in (e, (w', x)).

(** ** Basic facts *)

Lemma nonempty_empty : nonempty "" = false.
Proof. reflexivity. Qed.

Lemma nonempty_ne (val : string) : val ≠ "" → nonempty val = true.
Proof.
  destruct val as [|c val]; [done|]. intros _.
  unfold nonempty. apply bool_decide_eq_true. simpl. lia.
Qed.

Lemma nonempty_false (val : string) : nonempty val = false → val = "".
Proof.
  destruct val as [|c val]; [done|].
  intros Hf. by rewrite nonempty_ne in Hf.
Qed.

Lemma length_zero_empty (s : string) : String.length s = 0 ↔ s = "".
Proof. destruct s; simpl; split; intros; done || lia. Qed.

Section driver.
Context {W : Type} `{Strconv}.
Implicit Types (check : Checker W) (get : Getter W) (cons : Consumer W).

Lemma doCheck_accept key val check cons w val' w1 :
  check val w = ((val', None), w1) →
  doCheck key val check cons w = cons key val' w1.
Proof. intros Hc. unfold doCheck, bind. by rewrite Hc. Qed.

Lemma doCheck_reject key val check cons w val' e w1 :
  check val w = ((val', Some e), w1) →
  doCheck key val check cons w
  = (Some (errors_New ("invalid value for key " +:+ strconv_Quote key
                       +:+ ": " +:+ Error e)), w1).
Proof. intros Hc. unfold doCheck, bind. by rewrite Hc. Qed.

Lemma Req_present key check get cons w val w1 :
  get key w = (val, w1) → val ≠ "" →
  Req key check get cons w = doCheck key val check cons w1.
Proof. intros Hg Hne. unfold Req, bind. by rewrite Hg, nonempty_ne. Qed.

Lemma Req_absent key check get cons w w1 :
  get key w = ("", w1) →
  Req key check get cons w
  = (Some (errors_New ("missing key: " +:+ strconv_Quote key)), w1).
Proof. intros Hg. unfold Req, bind. by rewrite Hg. Qed.

Lemma Opt_present key check get cons w val w1 :
  get key w = (val, w1) → val ≠ "" →
  Opt key check get cons w = doCheck key val check cons w1.
Proof. intros Hg Hne. unfold Opt, bind. by rewrite Hg, nonempty_ne. Qed.

Lemma Opt_absent key check get cons w w1 :
  get key w = ("", w1) → Opt key check get cons w = (None, w1).
Proof. intros Hg. unfold Opt, bind. by rewrite Hg. Qed.

Lemma OptDef_present key check deflt get cons w val w1 :
  get key w = (val, w1) → val ≠ "" →
  OptDef key check deflt get cons w = doCheck key val check cons w1.
Proof. intros Hg Hne. unfold OptDef, bind. by rewrite Hg, nonempty_ne. Qed.

Lemma OptDef_absent key check deflt get cons w w1 :
  get key w = ("", w1) → OptDef key check deflt get cons w = cons key deflt w1.
Proof. intros Hg. unfold OptDef, bind. by rewrite Hg. Qed.

Lemma Cond_Ok key check yes no v :
  Cond key check yes no = Ok v →
  v = λ get cons,
        bind (get key) (λ val,
          if nonempty val then
            bind (doCheck key val check cons) (λ err,
              match err, yes with
              | None, Some yes => yes get cons
              | _, _ => ret err
              end)
          else match no with
               | Some no => no get cons
               | None => ret None
               end).
Proof. destruct yes, no; simpl; intros Hv; by inversion Hv. Qed.

Lemma Cond_present key check yes no v get cons w val w1 :
  Cond key check yes no = Ok v →
  get key w = (val, w1) → val ≠ "" →
  v get cons w
  = let '(err, w2) := doCheck key val check cons w1 in
    match err, yes with
    | None, Some yes => yes get cons w2
    | _, _ => (err, w2)
    end.
Proof.
  intros ->%Cond_Ok Hg Hne. unfold bind. rewrite Hg, nonempty_ne by done.
  destruct (doCheck _ _ _ _ _) as [[e|] w2]; [done|]. by destruct yes.
Qed.

Lemma Cond_absent key check yes no v get cons w w1 :
  Cond key check yes no = Ok v →
  get key w = ("", w1) →
  v get cons w = match no with
                 | Some no => no get cons w1
                 | None => (None, w1)
                 end.
Proof.
  intros ->%Cond_Ok Hg. unfold bind. rewrite Hg, nonempty_empty.
  by destruct no.
Qed.

Lemma Pack_Ok (validators : list (Validator W)) packed :
  Pack validators = Ok packed →
  validators ≠ [] ∧ packed = λ get cons, Pack_range validators get cons None.
Proof.
  unfold Pack. case_bool_decide as Hl; [done|].
  intros [= <-]. split; [|done]. by intros ->.
Qed.

Lemma Pack_nonempty (validators : list (Validator W)) :
  validators ≠ [] →
  Pack validators = Ok (λ get cons, Pack_range validators get cons None).
Proof.
  intros Hne. unfold Pack. case_bool_decide as Hl; [|done].
  by destruct validators.
Qed.

Lemma Pack_range_failure get cons before v after e w w1 w2 err0 :
  succeed_in_order get cons before w w1 →
  v get cons w1 = (Some e, w2) →
  Pack_range (before ++ v :: after) get cons err0 w = (Some e, w2).
Proof.
  intros Hs Hv. revert err0.
  induction Hs as [w|u us w wa wb Hu _ IH]; intros err0; simpl; unfold bind.
  - by rewrite Hv.
  - rewrite Hu. by apply IH.
Qed.

Lemma Pack_range_success get cons validators w w' :
  succeed_in_order get cons validators w w' →
  Pack_range validators get cons None w = (None, w').
Proof.
  induction 1 as [w|u us w wa wb Hu _ IH]; simpl; unfold bind; [done|].
  by rewrite Hu.
Qed.

Lemma succeed_or_fail get cons (validators : list (Validator W)) w :
  (∃ before v after e w1 w2,
      validators = before ++ v :: after
      ∧ succeed_in_order get cons before w w1
      ∧ v get cons w1 = (Some e, w2))
  ∨ (∃ w', succeed_in_order get cons validators w w').
Proof.
  revert w. induction validators as [|u us IH]; intros w.
  - right. exists w. constructor.
  - destruct (u get cons w) as [[e|] wa] eqn:Hu.
    + left. exists [], u, us, e, w, wa. repeat split; [constructor|done].
    + destruct (IH wa) as [(before & v & after & e & w1 & w2 & -> & Hs & Hv)|[w' Hs]].
      * left. exists (u :: before), v, after, e, w1, w2.
        repeat split; [|done]. by econstructor.
      * right. exists w'. by econstructor.
Qed.

End driver.

(** ** The composer [Pack] *)

(** C1. [Pack] panics on the empty list.  On a non-empty list it returns a
    validator that calls the constituents in list order, each on the world
    the previous one left: at the first constituent that fails it returns
    that very failure and the world that constituent left, so no later one
    is called; when all succeed it returns [nil].  One of the two cases
    always applies.  The getter and the sink are arbitrary, hence a call of
    either by [Pack] itself would show in the result: in particular a pack
    of validators that make no call leaves the world untouched. *)
Theorem Pack_first_failure_in_order {W : Type} :
  Pack (W:=W) [] = Panic "empty validator list in vald.Pack()"
  ∧ ∀ validators : list (Validator W), validators ≠ [] →
      ∃ packed, Pack validators = Ok packed ∧
        ∀ get cons w,
          (∀ before v after e w1 w2,
              validators = before ++ v :: after →
              succeed_in_order get cons before w w1 →
              v get cons w1 = (Some e, w2) →
              packed get cons w = (Some e, w2))
          ∧ (∀ w', succeed_in_order get cons validators w w' →
                   packed get cons w = (None, w'))
          ∧ ((∃ before v after e w1 w2,
                 validators = before ++ v :: after
                 ∧ succeed_in_order get cons before w w1
                 ∧ v get cons w1 = (Some e, w2))
             ∨ (∃ w', succeed_in_order get cons validators w w'))
          ∧ (Forall (λ v, v = silent) validators → packed get cons w = (None, w)).
Proof.
  split; [done|]. intros validators Hne.
  eexists. split; [by apply Pack_nonempty|]. intros get cons w.
  split; [|split; [|split]].
  - intros before v after e w1 w2 -> Hs Hv. by eapply Pack_range_failure.
  - intros w' Hs. by apply Pack_range_success.
  - apply succeed_or_fail.
  - intros Hsil. apply Pack_range_success.
    clear Hne. induction Hsil as [|v vs -> _ IH]; [constructor|].
    by econstructor.
Qed.

(** ** The evaluation driver [doCheck] and the field validators *)

(** C5. When the checker accepts the value, [doCheck] returns whatever the
    sink returns for the pair, so a failure of the sink comes back as it is;
    only a failure of the checker is replaced by one that is built from the
    quoted field name and the checker's message.  The same holds for each of
    the four field validators on a value that is present. *)
Theorem sink_failure_unchanged `{Strconv} {W : Type}
    (key val : string) (check : Checker W) (cons : Consumer W) (w : W) :
  (∀ val' w1, check val w = ((val', None), w1) →
     doCheck key val check cons w = cons key val' w1)
  ∧ (∀ val' e w1, check val w = ((val', Some e), w1) →
     doCheck key val check cons w
     = (Some (errors_New ("invalid value for key " +:+ strconv_Quote key
                          +:+ ": " +:+ Error e)), w1))
  ∧ (∀ get w0 val' w1 e w2,
       get key w0 = (val, w) → val ≠ "" →
       check val w = ((val', None), w1) →
       cons key val' w1 = (Some e, w2) →
       Req key check get cons w0 = (Some e, w2)
       ∧ Opt key check get cons w0 = (Some e, w2)
       ∧ (∀ deflt, OptDef key check deflt get cons w0 = (Some e, w2))
       ∧ (∀ yes no v, Cond key check yes no = Ok v → v get cons w0 = (Some e, w2))).
Proof.
  split; [|split].
  - intros val' w1 Hc. by apply doCheck_accept.
  - intros val' e w1 Hc. by eapply doCheck_reject.
  - intros get w0 val' w1 e w2 Hg Hne Hc Hs.
    pose proof (doCheck_accept key val check cons w val' w1 Hc) as Hd.
    rewrite Hs in Hd. split; [|split; [|split]].
    + by rewrite (Req_present _ _ _ _ _ _ _ Hg Hne).
    + by rewrite (Opt_present _ _ _ _ _ _ _ Hg Hne).
    + intros deflt. by rewrite (OptDef_present _ _ _ _ _ _ _ _ Hg Hne).
    + intros yes no v Hv. by rewrite (Cond_present _ _ _ _ _ _ _ _ _ _ Hv Hg Hne), Hd.
Qed.

(** What [Req] does on a value that is present, and on one that is not. *)
Lemma Req_checks_then_emits `{Strconv} {W : Type}
    (key : string) (check : Checker W) (get : Getter W) (cons : Consumer W) (w : W) :
  (∀ w1, get key w = ("", w1) →
     Req key check get cons w
     = (Some (errors_New ("missing key: " +:+ strconv_Quote key)), w1))
  ∧ (∀ val w1 val' w2, get key w = (val, w1) → val ≠ "" →
       check val w1 = ((val', None), w2) →
       Req key check get cons w = cons key val' w2)
  ∧ (∀ val w1 val' e w2, get key w = (val, w1) → val ≠ "" →
       check val w1 = ((val', Some e), w2) →
       Req key check get cons w
       = (Some (errors_New ("invalid value for key " +:+ strconv_Quote key
                            +:+ ": " +:+ Error e)), w2)).
Proof.
  split; [|split].
  - intros w1 Hg. by apply Req_absent.
  - intros val w1 val' w2 Hg Hne Hc.
    rewrite (Req_present _ _ _ _ _ _ _ Hg Hne). by apply doCheck_accept.
  - intros val w1 val' e w2 Hg Hne Hc.
    rewrite (Req_present _ _ _ _ _ _ _ Hg Hne). by eapply doCheck_reject.
Qed.

(** C2, at the input of [TestErrors]: [Req("ddd", Bool)] on the getter of
    the test, which has no key [ddd].  The validator fails without a call of
    the sink, and the message of the failure is [missing key: ] followed by
    the quoted name; it is not the message [parameter "ddd": missing value]
    that the test expects, whatever [strconv.Quote] returns. *)
Theorem Req_ddd_missing_key_message `{Strconv} {W : Type} (cons : Consumer W) (w : W) :
  ∃ err,
    Req "ddd" Bool
      (FromMap {["aaa" := "XXX"; "bbb" := "XXX"; "isOK" := "XXX"; "missing" := "xxx"]})
      cons w = (Some err, w)
    ∧ Error err = "missing key: " +:+ strconv_Quote "ddd"
    ∧ Error err ≠ test_missing_message "ddd".
Proof.
  eexists. split; [|split].
  - by apply Req_absent.
  - done.
  - discriminate.
Qed.

(** C3. When the getter returns no value, [OptDef] hands the pair of the
    field name and the default to the sink at once, in the world the getter
    left: the result does not depend on the checker, which is not called,
    also when it would refuse the default.  When a value is present,
    [OptDef] does what [Req] does: it calls the checker on the value, hands
    the sink the pair of the name and the checked value when the checker
    accepts, and returns the checker's failure, wrapped with the quoted
    name, without a call of the sink, when it refuses. *)
Theorem OptDef_default_unchecked `{Strconv} {W : Type}
    (key : string) (check : Checker W) (deflt : string)
    (get : Getter W) (cons : Consumer W) (w : W) :
  (∀ w1, get key w = ("", w1) →
     OptDef key check deflt get cons w = cons key deflt w1)
  ∧ (∀ w1 s e w2, get key w = ("", w1) →
       check deflt w1 = ((s, Some e), w2) →
       OptDef key check deflt get cons w = cons key deflt w1)
  ∧ (∀ val w1, get key w = (val, w1) → val ≠ "" →
       OptDef key check deflt get cons w = Req key check get cons w
       ∧ (∀ val' w2, check val w1 = ((val', None), w2) →
            OptDef key check deflt get cons w = cons key val' w2)
       ∧ (∀ val' e w2, check val w1 = ((val', Some e), w2) →
            OptDef key check deflt get cons w
            = (Some (errors_New ("invalid value for key " +:+ strconv_Quote key
                                 +:+ ": " +:+ Error e)), w2))).
Proof.
  split; [|split].
  - intros w1 Hg. by apply OptDef_absent.
  - intros w1 s e w2 Hg _. by apply OptDef_absent.
  - intros val w1 Hg Hne.
    rewrite (OptDef_present _ _ _ _ _ _ _ _ Hg Hne), (Req_present _ _ _ _ _ _ _ Hg Hne).
    split; [done|]. split.
    + intros val' w2 Hc. unfold doCheck, bind. by rewrite Hc.
    + intros val' e w2 Hc. unfold doCheck, bind. by rewrite Hc.
Qed.

(** C4. [Cond] panics when both sub-validators are [nil].  Otherwise, on a
    value that is present, the validator does what [Req] does and, only when
    that succeeded and [yes] is not [nil], goes on with [yes] in the world
    [Req] left; with a [nil] [yes] the result is that of [Req].  On a value
    that is absent it runs [no], and with a [nil] [no] it returns [nil] and
    leaves the world the getter left. *)
Theorem Cond_branches `{Strconv} {W : Type}
    (key : string) (check : Checker W) (yes no : option (Validator W)) :
  Cond key check None None = Panic "nil validators in vald.OptCond()"
  ∧ (is_Some yes ∨ is_Some no →
     ∃ v, Cond key check yes no = Ok v ∧
       ∀ get cons w,
         (∀ val w1, get key w = (val, w1) → val ≠ "" →
            ∀ err w2, Req key check get cons w = (err, w2) →
              v get cons w = match err, yes with
                             | None, Some y => y get cons w2
                             | _, _ => (err, w2)
                             end)
         ∧ (∀ w1, get key w = ("", w1) →
              v get cons w = match no with
                             | Some n => n get cons w1
                             | None => (None, w1)
                             end)).
Proof.
  split; [done|]. intros Hsome.
  assert (∃ v, Cond key check yes no = Ok v) as [v Hv].
  { destruct yes, no; simpl; eauto.
    destruct Hsome as [[? [=]]|[? [=]]]. }
  exists v. split; [done|]. intros get cons w. split.
  - intros val w1 Hg Hne err w2 Hreq.
    rewrite (Req_present _ _ _ _ _ _ _ Hg Hne) in Hreq.
    by rewrite (Cond_present _ _ _ _ _ _ _ _ _ _ Hv Hg Hne), Hreq.
  - intros w1 Hg. by eapply Cond_absent.
Qed.

(** A checker is called on values that are not empty only: two checkers
    that agree on them are interchangeable in [doCheck] on such a value. *)
Lemma doCheck_agree `{Strconv} {W : Type}
    (key val : string) (check check' : Checker W) (cons : Consumer W) (w : W) :
  (∀ v w, v ≠ "" → check v w = check' v w) →
  val ≠ "" →
  doCheck key val check cons w = doCheck key val check' cons w.
Proof. intros Hag Hne. unfold doCheck, bind. by rewrite Hag. Qed.

(** C10. A getter that returns the empty string for the field name is what
    a field validator takes for an absent field, and [FromMap] returns it
    both for a key that is not in the map and for a key mapped to the empty
    string.  On it [Req] fails with its missing-key error, [Opt] succeeds
    and leaves the world the getter left, [OptDef] emits the default and
    [Cond] takes the [no] branch.  No field validator calls its checker on
    the empty string: a checker may be replaced by any other that agrees
    with it on the non-empty strings. *)
Theorem empty_value_is_absent `{Strconv} {W : Type}
    (key : string) (check : Checker W) (get : Getter W) (cons : Consumer W) (w : W) :
  (∀ (m : gmap string string) (w0 : W),
      m !! key = None ∨ m !! key = Some "" → FromMap m key w0 = ("", w0))
  ∧ (∀ w1, get key w = ("", w1) →
       Req key check get cons w
       = (Some (errors_New ("missing key: " +:+ strconv_Quote key)), w1)
       ∧ Opt key check get cons w = (None, w1)
       ∧ (∀ deflt, OptDef key check deflt get cons w = cons key deflt w1)
       ∧ (∀ yes no v, Cond key check yes no = Ok v →
            v get cons w = match no with
                           | Some n => n get cons w1
                           | None => (None, w1)
                           end))
  ∧ (∀ check' : Checker W,
       (∀ v w, v ≠ "" → check v w = check' v w) →
       Req key check get cons w = Req key check' get cons w
       ∧ Opt key check get cons w = Opt key check' get cons w
       ∧ (∀ deflt, OptDef key check deflt get cons w = OptDef key check' deflt get cons w)
       ∧ (∀ yes no v v', Cond key check yes no = Ok v → Cond key check' yes no = Ok v' →
            v get cons w = v' get cons w)).
Proof.
  split; [|split].
  - intros m w0 [Hm|Hm]; unfold FromMap, ret; by rewrite Hm.
  - intros w1 Hg. split; [|split; [|split]].
    + by apply Req_absent.
    + by apply Opt_absent.
    + intros deflt. by apply OptDef_absent.
    + intros yes no v Hv. by eapply Cond_absent.
  - intros check' Hag.
    destruct (get key w) as [val w1] eqn:Hg.
    destruct (decide (val = "")) as [->|Hne].
    + split; [|split; [|split]].
      * by rewrite !(Req_absent _ _ _ _ _ _ Hg).
      * by rewrite !(Opt_absent _ _ _ _ _ _ Hg).
      * intros deflt. by rewrite !(OptDef_absent _ _ _ _ _ _ _ Hg).
      * intros yes no v v' Hv Hv'.
        by rewrite (Cond_absent _ _ _ _ _ _ _ _ _ Hv Hg), (Cond_absent _ _ _ _ _ _ _ _ _ Hv' Hg).
    + pose proof (doCheck_agree key val check check' cons w1 Hag Hne) as Hd.
      split; [|split; [|split]].
      * by rewrite !(Req_present _ _ _ _ _ _ _ Hg Hne).
      * by rewrite !(Opt_present _ _ _ _ _ _ _ Hg Hne).
      * intros deflt. by rewrite !(OptDef_present _ _ _ _ _ _ _ _ Hg Hne).
      * intros yes no v v' Hv Hv'.
        by rewrite (Cond_present _ _ _ _ _ _ _ _ _ _ Hv Hg Hne),
                   (Cond_present _ _ _ _ _ _ _ _ _ _ Hv' Hg Hne), Hd.
Qed.

(** ** The checkers [Bool] and [OneOf] *)

Lemma ParseBool_cases (val : string) :
  (val ∈ true_spellings ∧ strconv_ParseBool val = (true, None))
  ∨ ((val ∉ true_spellings) ∧ val ∈ false_spellings
     ∧ strconv_ParseBool val = (false, None))
  ∨ ((val ∉ true_spellings) ∧ (val ∉ false_spellings)
     ∧ strconv_ParseBool val
       = (false, Some (NumError "ParseBool" val strconv_ErrSyntax))).
Proof.
  unfold strconv_ParseBool, true_spellings, false_spellings.
  repeat case_bool_decide;
    rewrite ?elem_of_cons, ?elem_of_nil in *; intuition congruence.
Qed.

Lemma spellings_disjoint (val : string) :
  val ∈ true_spellings → val ∈ false_spellings → False.
Proof.
  unfold true_spellings, false_spellings.
  rewrite !elem_of_cons, !elem_of_nil. intuition congruence.
Qed.

(** C7. [Bool] returns ["true"] exactly on [1, t, T, TRUE, true, True] and
    ["false"] exactly on [0, f, F, FALSE, false, False]; on every other
    input it fails, with the message made of the quoted input and the reason
    of the parse error, [invalid syntax]. *)
Theorem Bool_spellings `{Strconv} {W : Type} (val : string) (w : W) :
  (val ∈ true_spellings ↔ Bool val w = (("true", None), w))
  ∧ (val ∈ false_spellings ↔ Bool val w = (("false", None), w))
  ∧ (val ∉ true_spellings → val ∉ false_spellings →
     Bool val w = (("", Some (errors_New (strconv_Quote val +:+ ": " +:+ "invalid syntax"))), w)).
Proof.
  destruct (ParseBool_cases val) as [(Ht & Hp)|[(Ht & Hf & Hp)|(Ht & Hf & Hp)]];
    unfold Bool; rewrite Hp; simpl.
  - split; [done|]. split; [|done]. split; [|done].
    intros Hf. by destruct (spellings_disjoint val).
  - split; [split; [done|by intros [= ?]]|]. done.
  - split; [split; [done|by intros [= ?]]|].
    split; [split; [done|by intros [= ?]]|]. done.
Qed.

Lemma Bool_pure `{Strconv} {W : Type} : pure_checker (Bool (W:=W)).
Proof.
  exists (λ val, let '(flag, err) := strconv_ParseBool val in
                 match err with
                 | Some err => ("", Some (mapNumErr val err))
                 | None => (strconv_FormatBool flag, None)
                 end).
  intros val w. unfold Bool. by destruct (strconv_ParseBool val) as [flag [e|]].
Qed.

Lemma OneOf_range_filled (i : nat) (literals : list string) (m : gmap string string) :
  "" ∉ literals →
  ∃ m', OneOf_range i literals m = Ok m'
        ∧ ∀ val, m' !! val = if decide (val ∈ literals) then Some val else m !! val.
Proof.
  revert i m. induction literals as [|lit rest IH]; intros i m Hne.
  - exists m. split; [done|]. intros val.
    rewrite decide_False; [done|apply not_elem_of_nil].
  - cbn [OneOf_range]. rewrite bool_decide_eq_false_2.
    2:{ rewrite length_zero_empty. intros ->. apply Hne. by left. }
    destruct (IH (S i) (<[lit := lit]> m)) as (m' & Hm' & Hl).
    { intros Hin. apply Hne. by right. }
    exists m'. split; [done|]. intros val. rewrite Hl.
    destruct (decide (val ∈ rest)) as [Hr|Hr].
    + rewrite decide_True; [done|by right].
    + destruct (decide (val = lit)) as [->|Hvl].
      * rewrite decide_True by (by left). by rewrite lookup_insert_eq.
      * rewrite decide_False; [by rewrite lookup_insert_ne|].
        intros Hin. apply elem_of_cons in Hin as [Hin|Hin]; done.
Qed.

Lemma OneOf_range_empty_literal (i : nat) (literals : list string) (m : gmap string string) :
  "" ∈ literals →
  ∃ j, literals !! j = Some ""
       ∧ (∀ j', j' < j → literals !! j' ≠ Some "")
       ∧ OneOf_range i literals m
         = Panic ("empty literal in vald.OneOf() at index " +:+ strconv_Itoa (i + j)).
Proof.
  revert i m. induction literals as [|lit rest IH]; intros i m Hin.
  - by apply elem_of_nil in Hin.
  - destruct (decide (lit = "")) as [->|Hlit].
    + exists 0. split; [done|]. split; [lia|]. simpl. by rewrite Nat.add_0_r.
    + apply elem_of_cons in Hin as [Heq|Hin]; [done|].
      destruct (IH (S i) (<[lit := lit]> m) Hin) as (j & Hj & Hfirst & Hp).
      exists (S j). split; [done|]. split.
      * intros [|j'] Hlt; simpl; [by intros [= ?]|]. apply Hfirst. lia.
      * simpl. rewrite bool_decide_eq_false_2 by (by rewrite length_zero_empty).
        rewrite Hp. by replace (S i + j) with (i + S j) by lia.
Qed.

(** C8. [OneOf] panics on the empty list, and on a list with an empty
    literal (naming the index of the first one).  On a non-empty list of
    non-empty literals it returns a checker that returns its input with no
    failure when the input is one of the literals, and otherwise fails with
    the quoted input as the message. *)
Theorem OneOf_membership `{Strconv} {W : Type} :
  OneOf (W:=W) [] = Panic "empty list of literals in vald.OneOf()"
  ∧ (∀ literals : list string, "" ∈ literals →
       ∃ j, literals !! j = Some ""
            ∧ (∀ j', j' < j → literals !! j' ≠ Some "")
            ∧ OneOf (W:=W) literals
              = Panic ("empty literal in vald.OneOf() at index " +:+ strconv_Itoa j))
  ∧ (∀ literals : list string, literals ≠ [] → "" ∉ literals →
       ∃ check : Checker W, OneOf literals = Ok check ∧
         ∀ val w,
           (val ∈ literals → check val w = ((val, None), w))
           ∧ (val ∉ literals →
              check val w = (("", Some (errors_New (strconv_Quote val))), w))).
Proof.
  split; [done|]. split.
  - intros literals Hin.
    destruct (OneOf_range_empty_literal 0 literals ∅ Hin) as (j & Hj & Hfirst & Hp).
    exists j. repeat split; [done..|].
    unfold OneOf. rewrite bool_decide_eq_false_2.
    + by rewrite Hp.
    + destruct literals; [by apply elem_of_nil in Hin|done].
  - intros literals Hne Hnoempty.
    destruct (OneOf_range_filled 0 literals ∅ Hnoempty) as (m & Hm & Hl).
    unfold OneOf. rewrite bool_decide_eq_false_2 by (by destruct literals).
    rewrite Hm. eexists. split; [done|]. intros val w. simpl. rewrite Hl. split.
    + intros Hin. rewrite decide_True by done. simpl.
      rewrite bool_decide_eq_false_2; [done|].
      rewrite length_zero_empty. by intros ->.
    + intros Hin. rewrite decide_False by done. by rewrite lookup_empty.
Qed.

(** The checkers of [OneOf] are pure. *)
Lemma OneOf_pure `{Strconv} {W : Type} (literals : list string) (check : Checker W) :
  OneOf literals = Ok check → pure_checker check.
Proof.
  unfold OneOf. case_bool_decide; [done|].
  destruct (OneOf_range 0 literals ∅) as [m|msg]; [|done].
  intros [= <-].
  exists (λ val, let s := default "" (m !! val) in
                 if bool_decide (String.length s = 0)
                 then (s, Some (errors_New (strconv_Quote val)))
                 else (s, None)).
  intros val w. simpl. by case_bool_decide.
Qed.


(** ** The materializer [Map] *)

Lemma write_all_app (l1 l2 : list (string * string)) (r : gmap string string) :
  write_all (l1 ++ l2) r = write_all l2 (write_all l1 r).
Proof. revert r. induction l1 as [|[k v] l1 IH]; intros r; [done|]. apply IH. Qed.

Lemma write_all_lookup (l : list (string * string)) (r : gmap string string) (k : string) :
  write_all l r !! k = match last_write l k with
                       | Some v => Some v
                       | None => r !! k
                       end.
Proof.
  revert r. induction l as [|[k' v] l IH]; intros r; [done|].
  simpl. rewrite IH. destruct (last_write l k) as [v'|]; [done|].
  destruct (decide (k' = k)) as [->|Hk].
  - by rewrite lookup_insert_eq.
  - by rewrite lookup_insert_ne.
Qed.

Lemma play_Map {W : Type} (s : script) (get : Getter W) (w : W)
    (r : gmap string string) :
  play s (Map_get get) Map_cons (w, r)
  = let '(err, l, w') := emissions s get w in (err, (w', write_all l r)).
Proof.
  revert w r. induction s as [err|key next IH|key val next IH]; intros w r; simpl.
  - done.
  - unfold bind. simpl. destruct (get key w) as [v w1]. apply IH.
  - unfold bind. simpl. rewrite IH.
    by destruct (emissions (next None) get w) as [[err l] w1].
Qed.

Lemma play_and_then {W : Type} (s rest : script) (get : Getter W) (cons : Consumer W) w :
  play (and_then s rest) get cons w
  = let '(err, w1) := play s get cons w in
    match err with
    | Some _ => (err, w1)
    | None => play rest get cons w1
    end.
Proof.
  revert w. induction s as [[e|]|key next IH|key val next IH]; intros w; simpl; try done.
  - unfold bind. destruct (get key w) as [v w1]. apply IH.
  - unfold bind. destruct (cons key val w) as [e w1]. apply IH.
Qed.

Lemma doCheck_follows_script `{Strconv} {W : Type} key val (check : Checker W) f
    (get : Getter W) (cons : Consumer W) w :
  (∀ v x, check v x = (f v, x)) →
  doCheck key val check cons w = play (doCheck_script key val f) get cons w.
Proof.
  intros Hf. unfold doCheck, doCheck_script, bind. rewrite Hf.
  destruct (f val) as [val' [e|]]; simpl; [done|].
  unfold bind. by destruct (cons key val' w).
Qed.

Lemma Req_follows_script `{Strconv} {W : Type} key (check : Checker W) f :
  (∀ v x, check v x = (f v, x)) →
  ∀ get cons w, Req key check get cons w = play (Req_script key f) get cons w.
Proof.
  intros Hf get cons w. unfold Req, Req_script. simpl. unfold bind.
  destruct (get key w) as [val w1]. destruct (nonempty val); [|done].
  by apply doCheck_follows_script.
Qed.

Lemma Opt_follows_script `{Strconv} {W : Type} key (check : Checker W) f :
  (∀ v x, check v x = (f v, x)) →
  ∀ get cons w, Opt key check get cons w = play (Opt_script key f) get cons w.
Proof.
  intros Hf get cons w. unfold Opt, Opt_script. simpl. unfold bind.
  destruct (get key w) as [val w1]. destruct (nonempty val); [|done].
  by apply doCheck_follows_script.
Qed.

Lemma OptDef_follows_script `{Strconv} {W : Type} key (check : Checker W) f deflt :
  (∀ v x, check v x = (f v, x)) →
  ∀ get cons w,
    OptDef key check deflt get cons w = play (OptDef_script key f deflt) get cons w.
Proof.
  intros Hf get cons w. unfold OptDef, OptDef_script. simpl. unfold bind.
  destruct (get key w) as [val w1]. destruct (nonempty val).
  - by apply doCheck_follows_script.
  - simpl. unfold bind. by destruct (cons key deflt w1).
Qed.

Lemma Pack_range_follows_script {W : Type} (validators : list (Validator W)) :
  (∀ u, u ∈ validators → ∃ s, ∀ get cons w, u get cons w = play s get cons w) →
  ∃ s, ∀ get cons w, Pack_range validators get cons None w = play s get cons w.
Proof.
  induction validators as [|u us IH]; intros Hall.
  - by exists (Return None).
  - destruct (Hall u) as [su Hu]; [by left|].
    destruct IH as [sr Hr]; [intros u' Hu'; apply Hall; by right|].
    exists (and_then su sr). intros get cons w.
    rewrite play_and_then, <- Hu. simpl. unfold bind.
    destruct (u get cons w) as [[e|] w1]; [done|]. apply Hr.
Qed.

(** Every validator composed with the constructors of the package over
    pure checkers follows a script. *)
Lemma composed_follows_script `{Strconv} {W : Type} (v : Validator W) :
  composed v → ∃ s, ∀ get cons w, v get cons w = play s get cons w.
Proof.
  induction 1 as [key check [f Hf]|key check [f Hf]|key check deflt [f Hf]
                 |key check yes no v [f Hf] _ IHy _ IHn Hv
                 |validators v _ IH Hp].
  - exists (Req_script key f). by apply Req_follows_script.
  - exists (Opt_script key f). by apply Opt_follows_script.
  - exists (OptDef_script key f deflt). by apply OptDef_follows_script.
  - apply Cond_Ok in Hv as ->.
    assert (∃ sy, ∀ get cons w,
               match yes with Some y => y get cons w | None => (None, w) end
               = play sy get cons w) as [sy Hy].
    { destruct yes as [y|]; [by apply IHy|by exists (Return None)]. }
    assert (∃ sn, ∀ get cons w,
               match no with Some n => n get cons w | None => (None, w) end
               = play sn get cons w) as [sn Hn].
    { destruct no as [n|]; [by apply IHn|by exists (Return None)]. }
    exists (Fetch key (λ val,
              if nonempty val then and_then (doCheck_script key val f) sy else sn)).
    intros get cons w. simpl. unfold bind.
    destruct (get key w) as [val w1]. destruct (nonempty val).
    + rewrite play_and_then, <- (doCheck_follows_script key val check f get cons w1 Hf).
      destruct (doCheck key val check cons w1) as [[e|] w2]; [done|].
      rewrite <- Hy. by destruct yes.
    + rewrite <- Hn. by destruct no.
  - apply Pack_Ok in Hp as [_ ->]. by apply Pack_range_follows_script.
Qed.

Lemma Bool_result_spec `{Strconv} {W : Type} (val : string) (w : W) :
  Bool val w = (Bool_result val, w).
Proof.
  unfold Bool_result, Bool. by destruct (strconv_ParseBool val) as [flag [e|]].
Qed.

(** C6. [Map] runs the validator on the caller's source and on a sink that
    stores every pair it is handed in a map which is empty at the start.
    For every validator that acts through its two callbacks, that is, that
    follows a script, and for every getter: take the failure and the pairs
    the validator emits on that getter and a sink that accepts every pair.
    If there is a failure, [Map] returns no map and that failure; if there
    is none, [Map] returns no failure and the map obtained by writing the
    pairs in the order of emission, in which a later pair of a name
    overwrites an earlier one, so that the map holds for each name the
    value emitted last.  [Map] leaves the world the getter left.  Every
    validator composed with the package's constructors over pure checkers
    follows a script. *)
Theorem Map_collects_last_write `{Strconv} {W : Type} (get : Getter W) (w : W) :
  (∀ (validate : Validator (W * gmap string string)) (s : script),
      (∀ get' cons' x, validate get' cons' x = play s get' cons' x) →
      ∃ err l w',
        emissions s get w = (err, l, w')
        ∧ Map validate get w
          = (match err with
             | Some e => (None, Some e)
             | None => (Some (write_all l ∅), None)
             end, w')
        ∧ ∀ k, write_all l ∅ !! k = last_write l k)
  ∧ (∀ validate : Validator (W * gmap string string),
      composed validate →
      ∃ s, ∀ get' cons' x, validate get' cons' x = play s get' cons' x).
Proof.
  split.
  - intros validate s Hs.
    destruct (emissions s get w) as [[err l] w'] eqn:He.
    exists err, l, w'. split; [done|]. split.
    + unfold Map. rewrite Hs, play_Map, He. by destruct err.
    + intros k. rewrite write_all_lookup, lookup_empty.
      by destruct (last_write l k).
  - intros validate Hv. by apply composed_follows_script.
Qed.

(** ** Further properties of the validators *)

(** X1. [Opt] differs from [Req] on an absent value only, where it returns
    [nil] and leaves the world the getter left.  On a value that is present
    it is [Req]; whenever [Req] succeeds [Opt] returns the same, and every
    failure of [Opt] is a failure of [Req]. *)
Theorem Opt_follows_Req `{Strconv} {W : Type}
    (key : string) (check : Checker W) (get : Getter W) (cons : Consumer W) (w : W) :
  (∀ w1, get key w = ("", w1) → Opt key check get cons w = (None, w1))
  ∧ (∀ val w1, get key w = (val, w1) → val ≠ "" →
       Opt key check get cons w = Req key check get cons w)
  ∧ (∀ w2, Req key check get cons w = (None, w2) →
       Opt key check get cons w = (None, w2))
  ∧ (∀ e w2, Opt key check get cons w = (Some e, w2) →
       Req key check get cons w = (Some e, w2)).
Proof.
  destruct (get key w) as [val w1] eqn:Hg.
  destruct (decide (val = "")) as [->|Hne].
  - rewrite (Opt_absent _ _ _ _ _ _ Hg), (Req_absent _ _ _ _ _ _ Hg).
    repeat split; intros; by simplify_eq.
  - rewrite (Opt_present _ _ _ _ _ _ _ Hg Hne), (Req_present _ _ _ _ _ _ _ Hg Hne).
    repeat split; intros; by simplify_eq.
Qed.

Lemma Pack_range_app {W : Type} (xs ys : list (Validator W)) get cons w :
  Pack_range (xs ++ ys) get cons None w
  = let '(err, w1) := Pack_range xs get cons None w in
    match err with
    | Some _ => (err, w1)
    | None => Pack_range ys get cons None w1
    end.
Proof.
  revert w. induction xs as [|x xs IH]; intros w; [done|].
  simpl. unfold bind. destruct (x get cons w) as [[e|] w1]; [done|]. apply IH.
Qed.

(** X2. Packing is flat: a pack of one validator does what that validator
    does, and a pack of two packs does what the pack of the concatenated
    lists does, for every getter, sink and world. *)
Theorem Pack_nested_is_flat {W : Type} :
  (∀ (v packed : Validator W) get cons w,
      Pack [v] = Ok packed → packed get cons w = v get cons w)
  ∧ (∀ (xs ys : list (Validator W)) px py,
      Pack xs = Ok px → Pack ys = Ok py →
      ∃ nested flat,
        Pack [px; py] = Ok nested
        ∧ Pack (xs ++ ys) = Ok flat
        ∧ ∀ get cons w, nested get cons w = flat get cons w).
Proof.
  split.
  - intros v packed get cons w [_ ->]%Pack_Ok. simpl. unfold bind.
    by destruct (v get cons w) as [[e|] w1].
  - intros xs ys px py [Hx ->]%Pack_Ok [Hy ->]%Pack_Ok.
    eexists _, _. split; [done|]. split.
    + apply Pack_nonempty. by destruct xs.
    + intros get cons w. cbv beta. rewrite Pack_range_app. simpl. unfold bind.
      destruct (Pack_range xs get cons None w) as [[e|] w1]; [done|].
      by destruct (Pack_range ys get cons None w1) as [[e|] w2].
Qed.

(** X3. [Cond] is [Opt] followed by a branch: the validator first does what
    [Opt] does for the key, returns its failure if there is one, and
    otherwise goes on with [yes] when the value was present and with [no]
    when it was absent (with nothing when that branch is [nil]).  With the
    same validator in both branches it is the pack of [Opt] and that
    validator. *)
Theorem Cond_is_Opt_then_branch `{Strconv} {W : Type}
    (key : string) (check : Checker W) :
  (∀ yes no v get cons w val w1,
      Cond key check yes no = Ok v →
      get key w = (val, w1) →
      v get cons w
      = let '(err, w2) := Opt key check get cons w in
        match err with
        | Some _ => (err, w2)
        | None =>
            match (if nonempty val then yes else no) with
            | Some u => u get cons w2
            | None => (None, w2)
            end
        end)
  ∧ (∀ u v packed get cons w,
      Cond key check (Some u) (Some u) = Ok v →
      Pack [Opt key check; u] = Ok packed →
      v get cons w = packed get cons w).
Proof.
  split.
  - intros yes no v get cons w val w1 Hv Hg.
    destruct (decide (val = "")) as [->|Hne].
    + rewrite (Cond_absent _ _ _ _ _ _ _ _ _ Hv Hg), (Opt_absent _ _ _ _ _ _ Hg).
      by rewrite nonempty_empty.
    + rewrite (Cond_present _ _ _ _ _ _ _ _ _ _ Hv Hg Hne),
              (Opt_present _ _ _ _ _ _ _ Hg Hne), nonempty_ne by done.
      by destruct (doCheck key val check cons w1) as [[e|] w2].
  - intros u v packed get cons w Hv [_ ->]%Pack_Ok.
    destruct (get key w) as [val w1] eqn:Hg. simpl. unfold bind at 1.
    destruct (decide (val = "")) as [->|Hne].
    + rewrite (Cond_absent _ _ _ _ _ _ _ _ _ Hv Hg), (Opt_absent _ _ _ _ _ _ Hg).
      unfold bind. by destruct (u get cons w1) as [[e|] w2].
    + rewrite (Cond_present _ _ _ _ _ _ _ _ _ _ Hv Hg Hne),
              (Opt_present _ _ _ _ _ _ _ Hg Hne).
      destruct (doCheck key val check cons w1) as [[e|] w2]; [done|].
      unfold bind. by destruct (u get cons w2) as [[e|] w3].
Qed.

(** X4. A field validator fetches exactly once, and its own key.  With a
    getter that logs the keys it is asked for, and a checker and a sink
    that leave the log alone, [Req], [Opt] and [OptDef] each return what
    they return without the log and add to the log the one entry of their
    key.  And on two getters that answer the call for the key alike, in
    value and in the world they leave, they do the same, whatever the
    getters answer elsewhere. *)
Theorem field_validator_fetches_own_key `{Strconv} {W : Type}
    (key : string) (check : Checker W) (get1 get2 : Getter W)
    (cons : Consumer W) (w : W) :
  (∀ log : list string,
      Req key (beside_checker check) (logging get1) (beside_sink cons) (w, log)
      = (let '(err, w') := Req key check get1 cons w in (err, (w', log ++ [key])))
      ∧ Opt key (beside_checker check) (logging get1) (beside_sink cons) (w, log)
        = (let '(err, w') := Opt key check get1 cons w in (err, (w', log ++ [key])))
      ∧ (∀ deflt,
           OptDef key (beside_checker check) deflt (logging get1) (beside_sink cons) (w, log)
           = (let '(err, w') := OptDef key check deflt get1 cons w in
              (err, (w', log ++ [key])))))
  ∧ (get1 key w = get2 key w →
     Req key check get1 cons w = Req key check get2 cons w
     ∧ Opt key check get1 cons w = Opt key check get2 cons w
     ∧ (∀ deflt, OptDef key check deflt get1 cons w = OptDef key check deflt get2 cons w)).
Proof.
  split.
  - intros log.
    assert (∀ val w1,
               doCheck key val (beside_checker check) (beside_sink cons) (w1, log ++ [key])
               = (let '(err, w') := doCheck key val check cons w1 in
                  (err, (w', log ++ [key])))) as Hd.
    { intros val w1. unfold doCheck, bind, beside_checker, beside_sink.
      destruct (check val w1) as [[s [e|]] w2]; [done|].
      by destruct (cons key s w2). }
    unfold Req, Opt, OptDef, bind, logging.
    destruct (get1 key w) as [val w1]. destruct (nonempty val).
    + rewrite Hd. by destruct (doCheck key val check cons w1).
    + split; [done|]. split; [done|]. intros deflt.
      unfold beside_sink. by destruct (cons key deflt w1).
  - intros Hg. unfold Req, Opt, OptDef, bind. by rewrite Hg.
Qed.

Lemma doCheck_emission `{Strconv} (key val : string)
    (check : Checker (list (string * string))) (f : string → string * option error) accept :
  (∀ v w, check v w = (f v, w)) →
  ∃ err l, (∀ tr, doCheck key val check (recorder accept) tr = (err, tr ++ l))
           ∧ (l = [] ∨ l = [(key, (f val).1)])
           ∧ (err = None → l = [(key, (f val).1)]).
Proof.
  intros Hf. destruct (f val) as [s [e|]] eqn:Hv.
  - eexists _, []. split.
    { intros tr. unfold doCheck, bind. by rewrite Hf, Hv, app_nil_r. }
    split; [by left|done].
  - exists (accept key s), [(key, s)]. split.
    { intros tr. unfold doCheck, bind. by rewrite Hf, Hv. }
    split; [by right|done].
Qed.

(** X5. In one evaluation a field validator hands the sink at most one
    pair, and that pair carries the field's own name.  With a pure checker,
    a map source and a recording sink: [Req], [Opt] and [OptDef] each add
    nothing or one pair of the key to the record, whatever was recorded
    before; [Req] and [OptDef] never succeed without emitting. *)
Theorem field_validator_emits_at_most_once `{Strconv} (key : string)
    (check : Checker (list (string * string))) (m : gmap string string)
    (accept : string → string → option error) :
  pure_checker check →
  (∃ err l, (∀ tr, Req key check (FromMap m) (recorder accept) tr = (err, tr ++ l))
            ∧ (l = [] ∨ ∃ val, l = [(key, val)])
            ∧ (err = None → l ≠ []))
  ∧ (∃ err l, (∀ tr, Opt key check (FromMap m) (recorder accept) tr = (err, tr ++ l))
              ∧ (l = [] ∨ ∃ val, l = [(key, val)]))
  ∧ (∀ deflt,
       ∃ err l, (∀ tr, OptDef key check deflt (FromMap m) (recorder accept) tr
                       = (err, tr ++ l))
                ∧ (l = [] ∨ ∃ val, l = [(key, val)])
                ∧ (err = None → l ≠ [])).
Proof.
  intros [f Hf].
  destruct (doCheck_emission key (default "" (m !! key)) check f accept Hf)
    as (err & l & Hrun & Hl & Hok).
  assert (l = [] ∨ ∃ val, l = [(key, val)]) as Hl' by (destruct Hl; eauto).
  assert (err = None → l ≠ []) as Hok' by (by intros ->%Hok).
  unfold Req, Opt, OptDef, bind, FromMap, ret.
  destruct (nonempty (default "" (m !! key))).
  - split; [|split]; [by exists err, l..|]. intros deflt. by exists err, l.
  - split; [|split].
    + eexists _, []. split; [intros tr; by rewrite app_nil_r|]. split; [by left|done].
    + eexists _, []. split; [intros tr; by rewrite app_nil_r|]. by left.
    + intros deflt. exists (accept key deflt), [(key, deflt)].
      split; [done|]. split; [right; by eexists|done].
Qed.

Lemma doCheck_failure_kind `{Strconv} {W : Type} key val (check : Checker W)
    (cons : Consumer W) w e w' :
  doCheck key val check cons w = (Some e, w') → failure_kind cons e.
Proof.
  unfold doCheck, bind. destruct (check val w) as [[s [e0|]] w1].
  - intros [= <- _]. by eapply invalid_value.
  - intros Hc. by eapply sink_failure.
Qed.

Lemma Pack_range_failure_kind `{Strconv} {W : Type} (validators : list (Validator W))
    (get : Getter W) (cons : Consumer W) :
  (∀ u, u ∈ validators → ∀ w e w', u get cons w = (Some e, w') → failure_kind cons e) →
  ∀ w e w', Pack_range validators get cons None w = (Some e, w') → failure_kind cons e.
Proof.
  induction validators as [|u us IH]; intros Hall w e w'; [done|].
  simpl. unfold bind. destruct (u get cons w) as [[e1|] w1] eqn:Hu.
  - intros [= <- _]. eapply Hall; [by left|done].
  - apply IH. intros u' Hu'. apply Hall. by right.
Qed.

(** X6. Every failure that a composed validator returns is of one of three
    kinds: the missing-key error of some [Req], a checker's failure wrapped
    by [doCheck] with the quoted key, or a failure that the sink itself
    returned for some pair.  With a sink that never fails, every failure
    therefore names a key. *)
Theorem composed_failure_kinds `{Strconv} {W : Type} (v : Validator W)
    (get : Getter W) (cons : Consumer W) (w : W) (e : error) (w' : W) :
  composed v →
  v get cons w = (Some e, w') →
  failure_kind cons e.
Proof.
  intros Hv. revert w e w'.
  induction Hv as [key check _|key check _|key check deflt _
                  |key check yes no v _ _ IHy _ IHn Hc
                  |validators v _ IH Hp]; intros w e w'.
  - unfold Req, bind. destruct (get key w) as [val w1]. destruct (nonempty val).
    + apply doCheck_failure_kind.
    + intros [= <- _]. by eapply missing_key.
  - unfold Opt, bind. destruct (get key w) as [val w1]. destruct (nonempty val).
    + apply doCheck_failure_kind.
    + done.
  - unfold OptDef, bind. destruct (get key w) as [val w1]. destruct (nonempty val).
    + apply doCheck_failure_kind.
    + intros Hc. by eapply sink_failure.
  - apply Cond_Ok in Hc as ->. unfold bind.
    destruct (get key w) as [val w1]. destruct (nonempty val).
    + destruct (doCheck key val check cons w1) as [[e1|] w2] eqn:Hd.
      * intros [= <- _]. by eapply doCheck_failure_kind.
      * destruct yes as [y|]; [by apply IHy|done].
    + destruct no as [n|]; [by apply IHn|done].
  - apply Pack_Ok in Hp as [_ ->]. by apply Pack_range_failure_kind.
Qed.

(** ** Further properties of the checkers *)

Lemma OneOf_Ok_decides `{Strconv} {W : Type} (literals : list string) (check : Checker W) :
  OneOf literals = Ok check →
  literals ≠ [] ∧ ("" ∉ literals)
  ∧ ∀ val w, check val w = if decide (val ∈ literals) then ((val, None), w)
                           else (("", Some (errors_New (strconv_Quote val))), w).
Proof.
  unfold OneOf. case_bool_decide as Hlen; [done|].
  assert (literals ≠ []) as Hne by (by intros ->).
  destruct (decide ("" ∈ literals)) as [Hin|Hnot].
  { destruct (OneOf_range_empty_literal 0 literals ∅ Hin) as (j & _ & _ & Hp).
    by rewrite Hp. }
  destruct (OneOf_range_filled 0 literals ∅ Hnot) as (m & Hm & Hl).
  rewrite Hm. intros [= <-]. split; [done|]. split; [done|].
  intros val w. simpl. rewrite Hl. destruct (decide (val ∈ literals)) as [Hv|Hv]; simpl.
  - rewrite bool_decide_eq_false_2; [done|].
    rewrite length_zero_empty. by intros ->.
  - by rewrite lookup_empty.
Qed.

Lemma OneOf_constructs `{Strconv} {W : Type} (literals : list string) :
  literals ≠ [] → "" ∉ literals → ∃ check : Checker W, OneOf literals = Ok check.
Proof.
  intros Hne Hnot.
  destruct (OneOf_range_filled 0 literals ∅ Hnot) as (m & Hm & _).
  unfold OneOf. rewrite bool_decide_eq_false_2 by (by destruct literals).
  rewrite Hm. by eexists.
Qed.

Lemma Regex_Ok `{Strconv} `{Regexp} {W : Type} (patt : string) (check : Checker W) :
  Regex patt = Ok check →
  ∃ matchString, regexp_MustCompile patt = Ok matchString
    ∧ ∀ val w, check val w = if matchString val then ((val, None), w)
                             else (("", Some (errors_New (strconv_Quote val))), w).
Proof.
  unfold Regex. destruct (regexp_MustCompile patt) as [ms|msg]; [|done].
  intros [= <-]. exists ms. split; [done|]. intros val w. by destruct (ms val).
Qed.

(** X7. The checkers of the package keep a normal form.  Each leaves the
    world as it is, returns the empty string together with a failure, and
    on success returns a value that it accepts again unchanged: the literal
    [true] or [false] for [Bool], and the input itself for the checkers of
    [OneOf] and [Regex].  What [Bool] and [OneOf] accept is never empty. *)
Theorem checkers_normal_form `{Strconv} `{Regexp} {W : Type} :
  (∀ val (w : W) s oe w',
      Bool val w = ((s, oe), w') →
      w' = w ∧ (is_Some oe → s = "")
      ∧ (oe = None →
         (s = "true" ∨ s = "false") ∧ s ≠ "" ∧ Bool s w = ((s, None), w)))
  ∧ (∀ literals (check : Checker W) val w s oe w',
      OneOf literals = Ok check →
      check val w = ((s, oe), w') →
      w' = w ∧ (is_Some oe → s = "")
      ∧ (oe = None → s = val ∧ s ≠ "" ∧ check s w = ((s, None), w)))
  ∧ (∀ patt (check : Checker W) val w s oe w',
      Regex patt = Ok check →
      check val w = ((s, oe), w') →
      w' = w ∧ (is_Some oe → s = "")
      ∧ (oe = None → s = val ∧ check s w = ((s, None), w))).
Proof.
  split; [|split].
  - intros val w s oe w'. unfold Bool.
    destruct (ParseBool_cases val) as [(_ & Hp)|[(_ & _ & Hp)|(_ & _ & Hp)]];
      rewrite Hp; simpl; intros [= <- <- <-];
      (split; [done|]); (split; [intros [x Hx]; by simplify_eq|]);
      intros Hoe; simplify_eq;
      (split; [by (left + right)|]); (split; [done|reflexivity]).
  - intros literals check val w s oe w' (_ & Hnot & Hc)%OneOf_Ok_decides.
    rewrite Hc. destruct (decide (val ∈ literals)) as [Hin|Hin];
      intros [= <- <- <-];
      (split; [done|]); (split; [intros [x Hx]; by simplify_eq|]);
      intros Hoe; simplify_eq.
    split; [done|]. split; [by intros ->|].
    by rewrite Hc, decide_True.
  - intros patt check val w s oe w' (ms & _ & Hc)%Regex_Ok.
    rewrite Hc. destruct (ms val) eqn:Hm;
      intros [= <- <- <-];
      (split; [done|]); (split; [intros [x Hx]; by simplify_eq|]);
      intros Hoe; simplify_eq.
    split; [done|]. by rewrite Hc, Hm.
Qed.

(** X8. [OneOf] takes its literals as a set: two lists with the same
    elements, in any order and with any repetitions, give checkers that
    return the same on every input. *)
Theorem OneOf_ignores_order_and_duplicates `{Strconv} {W : Type}
    (literals1 literals2 : list string) (check1 : Checker W) :
  (∀ lit, lit ∈ literals1 ↔ lit ∈ literals2) →
  OneOf literals1 = Ok check1 →
  ∃ check2 : Checker W,
    OneOf literals2 = Ok check2 ∧ ∀ val w, check1 val w = check2 val w.
Proof.
  intros Hsame (Hne & Hnot & Hc1)%OneOf_Ok_decides.
  destruct (OneOf_constructs (W:=W) literals2) as [check2 Hok].
  - destruct literals1 as [|lit rest]; [done|].
    intros ->. by apply (not_elem_of_nil lit), Hsame; left.
  - by rewrite <- Hsame.
  - exists check2. split; [done|].
    apply OneOf_Ok_decides in Hok as (_ & _ & Hc2).
    intros val w. rewrite Hc1, Hc2.
    destruct (decide (val ∈ literals1)) as [Hin|Hin].
    + by rewrite decide_True by (by apply Hsame).
    + by rewrite decide_False by (by rewrite <- Hsame).
Qed.

(** X9. [Regex] panics with the message of [regexp.MustCompile] when the
    pattern does not compile.  Otherwise [Req] over its checker hands the
    sink the fetched value itself when the pattern matches it, and when it
    does not, fails with the message [invalid value for key], the quoted
    key, a colon and the quoted value, without a call of the sink. *)
Theorem Req_Regex_value_unchanged `{Strconv} `{Regexp} {W : Type} (patt key : string) :
  (∀ msg, regexp_MustCompile patt = Panic msg → Regex (W:=W) patt = Panic msg)
  ∧ (∀ matchString, regexp_MustCompile patt = Ok matchString →
       ∃ check : Checker W, Regex patt = Ok check ∧
         ∀ get cons w val w1, get key w = (val, w1) → val ≠ "" →
           (matchString val = true →
              Req key check get cons w = cons key val w1)
           ∧ (matchString val = false →
              Req key check get cons w
              = (Some (errors_New ("invalid value for key " +:+ strconv_Quote key
                                   +:+ ": " +:+ strconv_Quote val)), w1))).
Proof.
  split.
  - intros msg Hp. unfold Regex. by rewrite Hp.
  - intros ms Hp. unfold Regex. rewrite Hp. eexists. split; [done|].
    intros get cons w val w1 Hg Hne.
    rewrite (Req_present _ _ _ _ _ _ _ Hg Hne). unfold doCheck, bind.
    split; intros Hm; by rewrite Hm.
Qed.

(** ** [Map] and the emissions of a composed validator *)

Section mirror.
Context `{Strconv} {W : Type}.

Lemma mirrors_ret {A : Type} (a : A) : mirrors (W:=W) (ret a) (ret a).
Proof.
  exists a, []. split; [intros tr; unfold ret; by rewrite app_nil_r|done].
Qed.

Lemma mirrors_bind {A B : Type} (m1 : M _ A) (m2 : M (W * _) A)
    (k1 : A → M _ B) (k2 : A → M (W * _) B) :
  mirrors m1 m2 → (∀ a, mirrors (k1 a) (k2 a)) → mirrors (bind m1 k1) (bind m2 k2).
Proof.
  intros (a & l1 & Hm1 & Hm2) Hk. destruct (Hk a) as (b & l2 & Hk1 & Hk2).
  exists b, (l1 ++ l2). split.
  - intros tr. unfold bind. by rewrite Hm1, Hk1, app_assoc.
  - intros w r. unfold bind. by rewrite Hm2, Hk2, write_all_app.
Qed.

Lemma mirrors_FromMap (m : gmap string string) (key : string) :
  mirrors (W:=W) (FromMap m key) (Map_get (FromMap m) key).
Proof.
  exists (default "" (m !! key)), []. split.
  - intros tr. unfold FromMap, ret. by rewrite app_nil_r.
  - done.
Qed.

Lemma mirrors_checker (c1 : Checker (list (string * string)))
    (c2 : Checker (W * gmap string string)) (val : string) :
  twin_checker c1 c2 → mirrors (c1 val) (c2 val).
Proof.
  intros (f & Hf1 & Hf2). exists (f val), []. split.
  - intros tr. by rewrite Hf1, app_nil_r.
  - intros w r. by rewrite Hf2.
Qed.

Lemma mirrors_sink (key val : string) :
  mirrors (W:=W) (recorder accept_all key val) (Map_cons key val).
Proof. by exists None, [(key, val)]. Qed.

Lemma mirrors_doCheck key val c1 c2 :
  twin_checker c1 c2 →
  mirrors (W:=W) (doCheck key val c1 (recorder accept_all)) (doCheck key val c2 Map_cons).
Proof.
  intros Hc. unfold doCheck. apply mirrors_bind; [by apply mirrors_checker|].
  intros [s [e|]]; [apply mirrors_ret|apply mirrors_sink].
Qed.

Lemma mirrors_Pack_range (vs1 : list (Validator (list (string * string))))
    (vs2 : list (Validator (W * gmap string string))) get1 get2 cons1 cons2 :
  length vs1 = length vs2 →
  (∀ i u1 u2, vs1 !! i = Some u1 → vs2 !! i = Some u2 →
              mirrors (u1 get1 cons1) (u2 get2 cons2)) →
  ∀ err0, mirrors (Pack_range vs1 get1 cons1 err0) (Pack_range vs2 get2 cons2 err0).
Proof.
  revert vs2. induction vs1 as [|u1 vs1 IH]; intros [|u2 vs2] Hlen Hall err0;
    try done; simpl.
  - apply mirrors_ret.
  - apply mirrors_bind; [by apply (Hall 0)|].
    intros [e|]; [apply mirrors_ret|].
    apply IH; [by injection Hlen|].
    intros i x1 x2 Hx1 Hx2. by apply (Hall (S i)).
Qed.

Lemma twin_mirrors (v1 : Validator (list (string * string)))
    (v2 : Validator (W * gmap string string)) (m : gmap string string) :
  twin v1 v2 →
  mirrors (v1 (FromMap m) (recorder accept_all)) (v2 (Map_get (FromMap m)) Map_cons).
Proof.
  induction 1 as [key c1 c2 Hc|key c1 c2 Hc|key c1 c2 deflt Hc
                 |key c1 c2 yes1 yes2 no1 no2 v1 v2 Hc Hy _ IHy Hn _ IHn Hv1 Hv2
                 |vs1 vs2 v1 v2 Hlen _ IH Hp1 Hp2].
  - unfold Req. apply mirrors_bind; [apply mirrors_FromMap|].
    intros val. destruct (nonempty val); [by apply mirrors_doCheck|apply mirrors_ret].
  - unfold Opt. apply mirrors_bind; [apply mirrors_FromMap|].
    intros val. destruct (nonempty val); [by apply mirrors_doCheck|apply mirrors_ret].
  - unfold OptDef. apply mirrors_bind; [apply mirrors_FromMap|].
    intros val. destruct (nonempty val); [by apply mirrors_doCheck|apply mirrors_sink].
  - apply Cond_Ok in Hv1 as ->. apply Cond_Ok in Hv2 as ->.
    apply mirrors_bind; [apply mirrors_FromMap|].
    intros val. destruct (nonempty val).
    + apply mirrors_bind; [by apply mirrors_doCheck|].
      intros [e|]; [apply mirrors_ret|].
      destruct yes1 as [y1|], yes2 as [y2|].
      * by apply IHy.
      * by pose proof (proj2 Hy eq_refl).
      * by pose proof (proj1 Hy eq_refl).
      * apply mirrors_ret.
    + destruct no1 as [n1|], no2 as [n2|].
      * by apply IHn.
      * by pose proof (proj2 Hn eq_refl).
      * by pose proof (proj1 Hn eq_refl).
      * apply mirrors_ret.
  - apply Pack_Ok in Hp1 as [_ ->]. apply Pack_Ok in Hp2 as [_ ->].
    by apply mirrors_Pack_range.
Qed.

End mirror.

(** X10. [Map] returns what the validator emits.  For a composition of the
    package's constructors over pure checkers and a map source, take the
    failure and the sequence of pairs that a recording sink sees: [Map]
    returns that failure and no map when there is one, even if pairs were
    emitted before it; otherwise it returns the map obtained by writing the
    pairs in order, which holds for each name the value emitted last.  The
    caller's world is left as it was. *)
Theorem Map_returns_emissions `{Strconv} {W : Type}
    (v1 : Validator (list (string * string)))
    (v2 : Validator (W * gmap string string)) (m : gmap string string) (w : W) :
  twin v1 v2 →
  ∃ err l,
    (∀ tr, v1 (FromMap m) (recorder accept_all) tr = (err, tr ++ l))
    ∧ Map v2 (FromMap m) w
      = (match err with
         | Some e => (None, Some e)
         | None => (Some (write_all l ∅), None)
         end, w)
    ∧ ∀ k, write_all l ∅ !! k = last_write l k.
Proof.
  intros Ht. destruct (twin_mirrors v1 v2 m Ht) as (err & l & Hrec & Hmap).
  exists err, l. split; [done|]. split.
  - unfold Map. rewrite Hmap. by destruct err.
  - intros k. rewrite write_all_lookup, lookup_empty.
    by destruct (last_write l k).
Qed.

Lemma Bool_accepts_again `{Strconv} {W : Type} (val : string) (w : W) s w1 :
  Bool val w = ((s, None), w1) →
  w1 = w ∧ s ≠ "" ∧ ∀ w2 : W, Bool s w2 = ((s, None), w2).
Proof.
  unfold Bool.
  destruct (ParseBool_cases val) as [(_ & Hp)|[(_ & _ & Hp)|(_ & _ & Hp)]];
    rewrite Hp; simpl; intros [= <- <-]; by repeat split.
Qed.

(** X11. A validated map validates again to itself.  Let the checker, on a
    value that is not empty, succeed only without changing the world and
    only with a value that is not empty and that it accepts again unchanged
    (as [Bool] and the checkers of [OneOf] and [Regex] do).  Then the map
    that [Map] returns for [Req], or for [Opt], is a source on which [Map]
    returns the same map. *)
Theorem validated_map_validates_again `{Strconv} {W : Type}
    (key : string) (check : Checker (W * gmap string string))
    (m r : gmap string string) (w w' : W) :
  (∀ val s x x1, val ≠ "" → check val x = ((s, None), x1) →
                 x1 = x ∧ s ≠ "" ∧ ∀ x2, check s x2 = ((s, None), x2)) →
  (Map (Req key check) (FromMap m) w = ((Some r, None), w') →
   Map (Req key check) (FromMap r) w = ((Some r, None), w'))
  ∧ (Map (Opt key check) (FromMap m) w = ((Some r, None), w') →
     Map (Opt key check) (FromMap r) w = ((Some r, None), w')).
Proof.
  intros Hagain.
  assert (∀ val s x1,
             val ≠ "" → check val (w, ∅) = ((s, None), x1) →
             ∀ w0 r0, (Some (<[key := s]> (∅ : gmap string string)), w) = (Some r0, w0) →
             Map (Req key check) (FromMap r0) w = ((Some r0, None), w0)
             ∧ Map (Opt key check) (FromMap r0) w = ((Some r0, None), w0)) as Hre.
  { intros val s x1 Hne Hc w0 r0 [= <- <-].
    destruct (Hagain val s _ _ Hne Hc) as (_ & Hs & Hfix).
    unfold Map, Req, Opt, bind, Map_get, FromMap, ret, doCheck.
    rewrite lookup_insert_eq. simpl. rewrite (nonempty_ne s Hs).
    unfold bind. by rewrite Hfix. }
  split.
  - unfold Map, Req, bind, Map_get, FromMap, ret.
    destruct (nonempty (default "" (m !! key))) eqn:Hn; [|done].
    unfold doCheck, bind.
    destruct (check (default "" (m !! key)) (w, ∅)) as [[s [e|]] x1] eqn:Hc; [by destruct x1|].
    assert (default "" (m !! key) ≠ "") as Hne by (by intros Heq; rewrite Heq in Hn).
    destruct (Hagain _ _ _ _ Hne Hc) as (-> & _ & _). simpl.
    intros [= <- <-]. by eapply Hre.
  - unfold Map, Opt, bind, Map_get, FromMap, ret.
    destruct (nonempty (default "" (m !! key))) eqn:Hn.
    + unfold doCheck, bind.
      destruct (check (default "" (m !! key)) (w, ∅)) as [[s [e|]] x1] eqn:Hc; [by destruct x1|].
      assert (default "" (m !! key) ≠ "") as Hne by (by intros Heq; rewrite Heq in Hn).
      destruct (Hagain _ _ _ _ Hne Hc) as (-> & _ & _). simpl.
      intros [= <- <-]. by eapply Hre.
    + intros [= <- <-]. by rewrite lookup_empty.
Qed.

Lemma Bool_twin `{Strconv} {W1 W2 : Type} : twin_checker (Bool (W:=W1)) (Bool (W:=W2)).
Proof.
  exists (λ val, let '(flag, err) := strconv_ParseBool val in
                 match err with
                 | Some err => ("", Some (mapNumErr val err))
                 | None => (strconv_FormatBool flag, None)
                 end).
  split; intros val w; unfold Bool; by destruct (strconv_ParseBool val) as [flag [e|]].
Qed.

(** X12. [Req] over [Bool] hands the sink the literal [true] or [false]
    only, never the spelling it fetched; for any other value it fails, with
    no call of the sink, and the message is [invalid value for key], the
    quoted key, the quoted value and [invalid syntax]: the function name and
    the second quoted value of the [*strconv.NumError] are dropped. *)
Theorem Req_Bool_emits_literals `{Strconv} {W : Type} (key : string)
    (get : Getter W) (cons : Consumer W) (w : W) (val : string) (w1 : W) :
  get key w = (val, w1) → val ≠ "" →
  (val ∈ true_spellings → Req key Bool get cons w = cons key "true" w1)
  ∧ (val ∈ false_spellings → Req key Bool get cons w = cons key "false" w1)
  ∧ (val ∉ true_spellings → val ∉ false_spellings →
     Req key Bool get cons w
     = (Some (errors_New ("invalid value for key " +:+ strconv_Quote key +:+ ": "
                          +:+ strconv_Quote val +:+ ": invalid syntax")), w1)).
Proof.
  intros Hg Hne. rewrite (Req_present _ _ _ _ _ _ _ Hg Hne).
  unfold doCheck, bind, Bool.
  destruct (ParseBool_cases val) as [(Ht & Hp)|[(Ht & Hf & Hp)|(Ht & Hf & Hp)]];
    rewrite Hp; simpl.
  - split; [done|]. split; [|done]. intros Hf. by destruct (spellings_disjoint val).
  - done.
  - done.
Qed.

(** ** The statements at concrete inputs *)

Section witnesses.
Local Existing Instance quote_plain.

Lemma Pack_first_failure_in_order_witness :
  ∃ packed : Validator (list (string * string)),
    Pack [Req "bbb" Bool; Req "ccc" Bool; Req "isOK" Bool] = Ok packed
    ∧ packed (FromMap {["bbb" := "1"; "isOK" := "0"]}) (recorder accept_all) []
      = (Some (errors_New ("missing key: " +:+ quote_plain "ccc")), [("bbb", "true")]).
Proof.
  destruct (proj2 (Pack_first_failure_in_order (W:=list (string * string)))
              [Req "bbb" Bool; Req "ccc" Bool; Req "isOK" Bool] ltac:(done))
    as (packed & Hp & Hrun).
  exists packed. split; [exact Hp|].
  destruct (Hrun (FromMap {["bbb" := "1"; "isOK" := "0"]}) (recorder accept_all) [])
    as (Hfail & _).
  apply (Hfail [Req "bbb" Bool] (Req "ccc" Bool) [Req "isOK" Bool] _ [("bbb", "true")]).
  - reflexivity.
  - eapply succeed_cons; [vm_compute; reflexivity | apply succeed_nil].
  - vm_compute. reflexivity.
Defined.

Lemma Req_ddd_missing_key_message_witness :
  ∃ err,
    Req "ddd" Bool
      (FromMap {["aaa" := "XXX"; "bbb" := "XXX"; "isOK" := "XXX"; "missing" := "xxx"]})
      (recorder accept_all) [] = (Some err, [])
    ∧ Error err = "missing key: " +:+ quote_plain "ddd"
    ∧ Error err ≠ test_missing_message "ddd".
Proof. exact (Req_ddd_missing_key_message (recorder accept_all) []). Defined.

Lemma OptDef_default_unchecked_witness :
  Bool "XXX" ([] : list (string * string))
  = (("", Some (errors_New (quote_plain "XXX" +:+ ": invalid syntax"))), [])
  ∧ OptDef "AAA" Bool "XXX" (FromMap {["isOK" := "1"]}) (recorder accept_all) []
    = (None, [("AAA", "XXX")])
  ∧ OptDef "isOK" Bool "XXX" (FromMap {["isOK" := "1"]}) (recorder accept_all) []
    = (None, [("isOK", "true")])
  ∧ OptDef "isOK" Bool "XXX" (FromMap {["isOK" := "yes"]}) (recorder accept_all) []
    = (Some (errors_New ("invalid value for key " +:+ quote_plain "isOK" +:+ ": "
                         +:+ quote_plain "yes" +:+ ": invalid syntax")), []).
Proof.
  split; [vm_compute; reflexivity|]. split; [|split].
  - apply (proj1 (proj2 (OptDef_default_unchecked "AAA" Bool "XXX"
                           (FromMap {["isOK" := "1"]}) (recorder accept_all) []))
             [] "" (errors_New (quote_plain "XXX" +:+ ": invalid syntax")) []).
    + vm_compute. reflexivity.
    + vm_compute. reflexivity.
  - destruct (proj2 (proj2 (OptDef_default_unchecked "isOK" Bool "XXX"
                              (FromMap {["isOK" := "1"]}) (recorder accept_all) []))
                "1" []) as (_ & Haccept & _);
      [vm_compute; reflexivity|discriminate|].
    rewrite (Haccept "true" []); [|vm_compute; reflexivity].
    vm_compute. reflexivity.
  - destruct (proj2 (proj2 (OptDef_default_unchecked "isOK" Bool "XXX"
                              (FromMap {["isOK" := "yes"]}) (recorder accept_all) []))
                "yes" []) as (_ & _ & Hrefuse);
      [vm_compute; reflexivity|discriminate|].
    rewrite (Hrefuse "" (errors_New (quote_plain "yes" +:+ ": invalid syntax")) []);
      [|vm_compute; reflexivity].
    vm_compute. reflexivity.
Defined.

Lemma Cond_branches_witness :
  ∃ v : Validator (list (string * string)),
    Cond "aaa" Bool (Some (Req "bbb" Bool)) None = Ok v
    ∧ v (FromMap {["aaa" := "1"; "bbb" := "0"]}) (recorder accept_all) []
      = (None, [("aaa", "true"); ("bbb", "false")])
    ∧ v (FromMap {["ccc" := "0"]}) (recorder accept_all) [] = (None, []).
Proof.
  destruct (proj2 (Cond_branches (W:=list (string * string)) "aaa" Bool (Some (Req "bbb" Bool)) None)
              (or_introl (ex_intro _ _ eq_refl)))
    as (v & Hv & Hrun).
  exists v. split; [exact Hv|]. split.
  - destruct (Hrun (FromMap {["aaa" := "1"; "bbb" := "0"]}) (recorder accept_all) [])
      as (Hpresent & _).
    rewrite (Hpresent "1" [] ltac:(vm_compute; reflexivity) ltac:(discriminate)
               None [("aaa", "true")] ltac:(vm_compute; reflexivity)).
    vm_compute. reflexivity.
  - destruct (Hrun (FromMap {["ccc" := "0"]}) (recorder accept_all) [])
      as (_ & Habsent).
    apply (Habsent []). vm_compute. reflexivity.
Defined.

Lemma sink_failure_unchanged_witness :
  Req "isOK" Bool (FromMap {["isOK" := "1"]}) (recorder refuse_all) []
  = (Some (errors_New "sink refuses"), [("isOK", "true")]).
Proof.
  apply (proj2 (proj2 (sink_failure_unchanged "isOK" "1" Bool (recorder refuse_all) []))
           (FromMap {["isOK" := "1"]}) [] "true" []
           (errors_New "sink refuses") [("isOK", "true")]).
  - vm_compute. reflexivity.
  - discriminate.
  - vm_compute. reflexivity.
  - vm_compute. reflexivity.
Defined.

Lemma Map_collects_last_write_witness :
  Map (Req "isOK" Bool) (FromMap {["isOK" := "1"]}) tt
  = ((Some (<["isOK" := "true"]> ∅), None), tt)
  ∧ Map (OptDef "isOK" Bool "XXX") (FromMap {["isOK" := "yes"]}) tt
    = ((None, Some (errors_New ("invalid value for key " +:+ quote_plain "isOK" +:+ ": "
                                +:+ quote_plain "yes" +:+ ": invalid syntax"))), tt)
  ∧ Map (play (and_then (OptDef_script "kkk" Bool_result "1")
                        (and_then (Emit "kkk" "2" Return) (Req_script "isOK" Bool_result))))
        (FromMap {["isOK" := "0"]}) tt
    = ((Some (<["isOK" := "false"]> (<["kkk" := "2"]> (<["kkk" := "1"]> ∅))), None), tt).
Proof.
  split; [|split].
  - destruct (proj1 (Map_collects_last_write (FromMap {["isOK" := "1"]}) tt)
                (Req "isOK" Bool) (Req_script "isOK" Bool_result)
                (Req_follows_script "isOK" Bool Bool_result Bool_result_spec))
      as (err & l & w' & He & Hmap & _).
    vm_compute in He. injection He as <- <- <-. exact Hmap.
  - destruct (proj1 (Map_collects_last_write (FromMap {["isOK" := "yes"]}) tt)
                (OptDef "isOK" Bool "XXX") (OptDef_script "isOK" Bool_result "XXX")
                (OptDef_follows_script "isOK" Bool Bool_result "XXX" Bool_result_spec))
      as (err & l & w' & He & Hmap & _).
    vm_compute in He. injection He as <- <- <-. exact Hmap.
  - destruct (proj1 (Map_collects_last_write (FromMap {["isOK" := "0"]}) tt)
                (play (and_then (OptDef_script "kkk" Bool_result "1")
                         (and_then (Emit "kkk" "2" Return)
                                   (Req_script "isOK" Bool_result))))
                _ (λ _ _ _, eq_refl))
      as (err & l & w' & He & Hmap & _).
    vm_compute in He. injection He as <- <- <-. exact Hmap.
Defined.

Lemma Bool_spellings_witness :
  Bool "T" tt = (("true", None), tt)
  ∧ Bool "FALSE" tt = (("false", None), tt)
  ∧ Bool "yes" tt = (("", Some (errors_New (quote_plain "yes" +:+ ": invalid syntax"))), tt).
Proof.
  split; [|split].
  - apply (proj1 (Bool_spellings "T" tt)).
    apply (bool_decide_unpack _). vm_compute. exact I.
  - apply (proj1 (proj2 (Bool_spellings "FALSE" tt))).
    apply (bool_decide_unpack _). vm_compute. exact I.
  - apply (proj2 (proj2 (Bool_spellings "yes" tt)));
      apply (bool_decide_unpack _); vm_compute; exact I.
Defined.

Lemma OneOf_membership_witness :
  ∃ check : Checker unit,
    OneOf ["xxx"; "yyy"; "zzz"] = Ok check
    ∧ check "zzz" tt = (("zzz", None), tt)
    ∧ check "XXX" tt = (("", Some (errors_New (quote_plain "XXX"))), tt).
Proof.
  destruct (proj2 (proj2 (OneOf_membership (W:=unit))) ["xxx"; "yyy"; "zzz"]
              ltac:(discriminate)
              ltac:(apply (bool_decide_unpack _); vm_compute; exact I))
    as (check & Hc & Hrun).
  exists check. split; [exact Hc|]. split.
  - apply (proj1 (Hrun "zzz" tt)).
    apply (bool_decide_unpack _). vm_compute. exact I.
  - apply (proj2 (Hrun "XXX" tt)).
    apply (bool_decide_unpack _). vm_compute. exact I.
Defined.

Lemma empty_value_is_absent_witness :
  Req "ddd" Bool (FromMap {["ddd" := ""]}) (recorder accept_all) []
  = (Some (errors_New ("missing key: " +:+ quote_plain "ddd")), [])
  ∧ Opt "ddd" Bool (FromMap {["ddd" := ""]}) (recorder accept_all) [] = (None, []).
Proof.
  pose proof (proj1 (proj2 (empty_value_is_absent "ddd" Bool (FromMap {["ddd" := ""]})
                              (recorder accept_all) []))) as Habsent.
  destruct (Habsent []) as (Hreq & Hopt & _); [vm_compute; reflexivity|].
  split; [exact Hreq|exact Hopt].
Defined.

(** The four cases of [TestCond], with the emissions the test expects. *)
Example TestCond_yes_and_no_present :
  ∃ v : Validator (list (string * string)),
    Cond "aaa" Bool (Some (Req "bbb" Bool)) (Some (Req "ccc" Bool)) = Ok v
    ∧ ∃ packed, Pack [v] = Ok packed
      ∧ packed (FromMap {["aaa" := "1"; "bbb" := "0"]}) (recorder accept_all) []
        = (None, [("aaa", "true"); ("bbb", "false")]).
Proof. eexists. split; [reflexivity|]. eexists. split; reflexivity. Qed.

Example TestCond_yes_and_no_absent :
  ∃ v : Validator (list (string * string)),
    Cond "aaa" Bool (Some (Req "bbb" Bool)) (Some (Req "ccc" Bool)) = Ok v
    ∧ ∃ packed, Pack [v] = Ok packed
      ∧ packed (FromMap {["ccc" := "0"]}) (recorder accept_all) []
        = (None, [("ccc", "false")]).
Proof. eexists. split; [reflexivity|]. eexists. split; reflexivity. Qed.

Example TestCond_nil_no :
  ∃ v : Validator (list (string * string)),
    Cond "aaa" Bool (Some (Req "bbb" Bool)) None = Ok v
    ∧ ∃ packed, Pack [v] = Ok packed
      ∧ packed (FromMap {["aaa" := "1"; "bbb" := "0"]}) (recorder accept_all) []
        = (None, [("aaa", "true"); ("bbb", "false")]).
Proof. eexists. split; [reflexivity|]. eexists. split; reflexivity. Qed.

Example TestCond_nil_yes :
  ∃ v : Validator (list (string * string)),
    Cond "aaa" Bool None (Some (Req "ccc" Bool)) = Ok v
    ∧ ∃ packed, Pack [v] = Ok packed
      ∧ packed (FromMap {["ccc" := "0"]}) (recorder accept_all) []
        = (None, [("ccc", "false")]).
Proof. eexists. split; [reflexivity|]. eexists. split; reflexivity. Qed.

(** The messages of the three failures of [TestErrors] that a checker
    raises, as the code builds them. *)
Example TestErrors_messages :
  ∃ oneOf : Checker (list (string * string)),
    OneOf ["xxx"; "yyy"; "zzz"] = Ok oneOf
    ∧ Req "aaa" oneOf (FromMap {["aaa" := "XXX"]}) (recorder accept_all) []
      = (Some (errors_New ("invalid value for key " +:+ quote_plain "aaa" +:+ ": "
                           +:+ quote_plain "XXX")), [])
    ∧ Req "isOK" Bool (FromMap {["isOK" := "XXX"]}) (recorder accept_all) []
      = (Some (errors_New ("invalid value for key " +:+ quote_plain "isOK" +:+ ": "
                           +:+ quote_plain "XXX" +:+ ": invalid syntax")), []).
Proof. eexists. split; [reflexivity|]. split; vm_compute; reflexivity. Qed.

Lemma Opt_follows_Req_witness :
  Opt "aaa" Bool (FromMap {["isOK" := "1"]}) (recorder accept_all) [] = (None, [])
  ∧ Opt "isOK" Bool (FromMap {["isOK" := "1"]}) (recorder accept_all) []
    = Req "isOK" Bool (FromMap {["isOK" := "1"]}) (recorder accept_all) [].
Proof.
  split.
  - apply (proj1 (Opt_follows_Req "aaa" Bool (FromMap {["isOK" := "1"]})
                    (recorder accept_all) [])).
    vm_compute. reflexivity.
  - apply (proj1 (proj2 (Opt_follows_Req "isOK" Bool (FromMap {["isOK" := "1"]})
                           (recorder accept_all) [])) "1" []).
    + vm_compute. reflexivity.
    + discriminate.
Defined.

Lemma Pack_nested_is_flat_witness :
  ∃ nested flat : Validator (list (string * string)),
    Pack [(λ get cons, Pack_range [Req "aaa" Bool] get cons None);
          (λ get cons, Pack_range [Opt "bbb" Bool; Req "ccc" Bool] get cons None)]
    = Ok nested
    ∧ Pack ([Req "aaa" Bool] ++ [Opt "bbb" Bool; Req "ccc" Bool]) = Ok flat
    ∧ ∀ get cons w, nested get cons w = flat get cons w.
Proof.
  apply (proj2 Pack_nested_is_flat [Req "aaa" Bool] [Opt "bbb" Bool; Req "ccc" Bool]).
  - reflexivity.
  - reflexivity.
Defined.

Lemma Cond_is_Opt_then_branch_witness :
  ∃ v packed : Validator (list (string * string)),
    Cond "aaa" Bool (Some (Req "ccc" Bool)) (Some (Req "ccc" Bool)) = Ok v
    ∧ Pack [Opt "aaa" Bool; Req "ccc" Bool] = Ok packed
    ∧ ∀ get cons w, v get cons w = packed get cons w.
Proof.
  assert (∃ v : Validator (list (string * string)),
             Cond "aaa" Bool (Some (Req "ccc" Bool)) (Some (Req "ccc" Bool)) = Ok v)
    as [v Hv] by (eexists; reflexivity).
  assert (∃ packed : Validator (list (string * string)),
             Pack [Opt "aaa" Bool; Req "ccc" Bool] = Ok packed)
    as [packed Hp] by (eexists; reflexivity).
  exists v, packed. split; [exact Hv|]. split; [exact Hp|].
  intros get cons w.
  exact (proj2 (Cond_is_Opt_then_branch "aaa" Bool) (Req "ccc" Bool) v packed
           get cons w Hv Hp).
Defined.

Lemma field_validator_fetches_own_key_witness :
  Req "kkk" (beside_checker Bool) (logging (FromMap {["kkk" := "1"; "zzz" := "2"]}))
      (beside_sink (recorder accept_all)) ([], ["aaa"])
  = (None, ([("kkk", "true")], ["aaa"; "kkk"]))
  ∧ Req "kkk" Bool (FromMap {["kkk" := "1"]}) (recorder accept_all) []
    = Req "kkk" Bool (FromMap {["kkk" := "1"; "zzz" := "2"]}) (recorder accept_all) [].
Proof.
  split.
  - rewrite (proj1 (proj1 (field_validator_fetches_own_key "kkk" Bool
                             (FromMap {["kkk" := "1"; "zzz" := "2"]})
                             (FromMap {["kkk" := "1"]}) (recorder accept_all) [])
                      ["aaa"])).
    vm_compute. reflexivity.
  - apply (proj2 (field_validator_fetches_own_key "kkk" Bool
                    (FromMap {["kkk" := "1"]}) (FromMap {["kkk" := "1"; "zzz" := "2"]})
                    (recorder accept_all) [])).
    vm_compute. reflexivity.
Defined.

Lemma field_validator_emits_at_most_once_witness :
  ∃ err l,
    (∀ tr, Req "isOK" Bool (FromMap {["isOK" := "1"]}) (recorder accept_all) tr
           = (err, tr ++ l))
    ∧ (l = [] ∨ ∃ val, l = [("isOK", val)])
    ∧ (err = None → l ≠ []).
Proof.
  apply (proj1 (field_validator_emits_at_most_once "isOK" Bool {["isOK" := "1"]}
                  accept_all Bool_pure)).
Defined.

Lemma composed_failure_kinds_witness :
  failure_kind (recorder accept_all) (errors_New ("missing key: " +:+ quote_plain "ddd")).
Proof.
  apply (composed_failure_kinds (Req "ddd" Bool) (FromMap {["isOK" := "1"]})
           (recorder accept_all) [] _ []).
  - apply composed_Req, Bool_pure.
  - vm_compute. reflexivity.
Defined.

Lemma checkers_normal_form_witness :
  Bool "true" tt = (("true", None), tt).
Proof.
  apply (proj1 (checkers_normal_form (H0:=regexp_literal)) "1" tt "true" None tt).
  - vm_compute. reflexivity.
  - reflexivity.
Defined.

Lemma OneOf_ignores_order_and_duplicates_witness :
  ∃ check1 check2 : Checker unit,
    OneOf ["xxx"; "yyy"] = Ok check1
    ∧ OneOf ["yyy"; "xxx"; "yyy"] = Ok check2
    ∧ ∀ val w, check1 val w = check2 val w.
Proof.
  destruct (OneOf_constructs (W:=unit) ["xxx"; "yyy"]) as [check1 H1].
  - discriminate.
  - apply (bool_decide_unpack _). vm_compute. exact I.
  - destruct (OneOf_ignores_order_and_duplicates ["xxx"; "yyy"] ["yyy"; "xxx"; "yyy"]
                check1) as (check2 & H2 & Hsame).
    + intros lit. rewrite !elem_of_cons, !elem_of_nil. tauto.
    + exact H1.
    + by exists check1, check2.
Defined.

Lemma Req_Regex_value_unchanged_witness :
  ∃ check : Checker (list (string * string)),
    Regex (H0:=regexp_literal) "abc" = Ok check
    ∧ Req "kkk" check (FromMap {["kkk" := "abc"]}) (recorder accept_all) []
      = (None, [("kkk", "abc")])
    ∧ Req "kkk" check (FromMap {["kkk" := "abd"]}) (recorder accept_all) []
      = (Some (errors_New ("invalid value for key " +:+ quote_plain "kkk" +:+ ": "
                           +:+ quote_plain "abd")), []).
Proof.
  destruct (proj2 (Req_Regex_value_unchanged (H0:=regexp_literal)
                     (W:=list (string * string)) "abc" "kkk")
              (λ val, bool_decide (val = "abc")) eq_refl)
    as (check & Hc & Hrun).
  exists check. split; [exact Hc|]. split.
  - destruct (Hrun (FromMap {["kkk" := "abc"]}) (recorder accept_all) [] "abc" [])
      as (Hyes & _); [vm_compute; reflexivity|discriminate|].
    apply Hyes. vm_compute. reflexivity.
  - destruct (Hrun (FromMap {["kkk" := "abd"]}) (recorder accept_all) [] "abd" [])
      as (_ & Hno); [vm_compute; reflexivity|discriminate|].
    apply Hno. vm_compute. reflexivity.
Defined.

Lemma Map_returns_emissions_witness :
  ∃ err l,
    (∀ tr, Req "isOK" Bool (FromMap {["isOK" := "1"]}) (recorder accept_all) tr
           = (err, tr ++ l))
    ∧ Map (Req "isOK" Bool) (FromMap {["isOK" := "1"]}) tt
      = (match err with
         | Some e => (None, Some e)
         | None => (Some (write_all l ∅), None)
         end, tt)
    ∧ ∀ k, write_all l ∅ !! k = last_write l k.
Proof.
  apply (Map_returns_emissions (Req "isOK" Bool) (Req "isOK" Bool)
           {["isOK" := "1"]} tt).
  apply twin_Req, Bool_twin.
Defined.

Lemma validated_map_validates_again_witness :
  Map (Req "isOK" Bool) (FromMap (<["isOK" := "true"]> ∅)) tt
  = ((Some (<["isOK" := "true"]> ∅), None), tt).
Proof.
  apply (proj1 (validated_map_validates_again "isOK" Bool {["isOK" := "1"]}
                  (<["isOK" := "true"]> ∅) tt tt
                  (λ val s x x1 _ Hc, Bool_accepts_again val x s x1 Hc))).
  vm_compute. reflexivity.
Defined.

Lemma Req_Bool_emits_literals_witness :
  Req "isOK" Bool (FromMap {["isOK" := "T"]}) (recorder accept_all) []
  = (None, [("isOK", "true")]).
Proof.
  destruct (Req_Bool_emits_literals "isOK" (FromMap {["isOK" := "T"]})
              (recorder accept_all) [] "T" [])
    as (Htrue & _); [vm_compute; reflexivity|discriminate|].
  apply Htrue. apply (bool_decide_unpack _). vm_compute. exact I.
Defined.

End witnesses.
